(** * sxplayer test program: the action-sequence enumerator, the frame
      oracle and the sequence executor of [test-prog.c]

    A shallow embedding of [test-prog.c].  Unsigned 64-bit combs and C
    [int]s are integers of [Z]: the slots read are below 16, the shifted
    actions at most [16 << 20], the combs returned below [2 ^ 24]
    ([get_next_comb_range]) and the frame ids below 4096, so that no
    operation of the program wraps around.  C [double]s are the kernel's
    binary64 floats, and the external player API is an interface the
    harness is parameterised over. *)

From Stdlib Require Import String.
From Stdlib Require Import ZArith List Bool Lia Sorted Permutation.
From Stdlib Require Import Floats.
Import ListNotations.
Set Warnings "-inexact-float".
Local Open Scope Z_scope.

(** ** [enum action] and the comb encoding *)

Definition BITS_PER_ACTION : Z := 4.

Definition EOA : Z := 0.
Definition ACTION_PREFETCH : Z := 1.
Definition ACTION_FETCH_INFO : Z := 2.
Definition ACTION_START : Z := 3.
Definition ACTION_MIDDLE : Z := 4.
Definition ACTION_END : Z := 5.
Definition NB_ACTIONS : Z := 6.

(** [#define GET_ACTION(c, id) ((c) >> ((id)*BITS_PER_ACTION) & ((1<<BITS_PER_ACTION)-1))] *)
Definition GET_ACTION (c id : Z) : Z :=
  Z.land (Z.shiftr c (id * BITS_PER_ACTION)) (Z.shiftl 1 BITS_PER_ACTION - 1).

(** ** [has_dup]

    The [for (i = 0; i < NB_ACTIONS; i++)] loop; [n] is the number of
    iterations left, [NB_ACTIONS - i].  The result is the C [int]. *)
Fixpoint has_dup_loop (n : nat) (comb i actions : Z) : Z :=
  match n with
  | O => 0
  | S n' =>
      let action := GET_ACTION comb i in
      if action =? 0 then 0
      else if negb (Z.land actions (Z.shiftl 1 action) =? 0) then 1
      else has_dup_loop n' comb (i + 1) (Z.lor actions (Z.shiftl 1 action))
  end.

Definition has_dup (comb : Z) : Z :=
  has_dup_loop (Z.to_nat NB_ACTIONS) comb 0 0.

(** ** [get_next_comb]

    How the [for (;;)] loop of [get_next_comb] is left: by
    [return EOA] or by [break] with the candidate built so far. *)
Inductive scan_exit : Type :=
| ScanReturn (v : Z)
| ScanBreak (ret : Z).

(** The body of the [for (;;)] loop.  [n] is [NB_ACTIONS - i], so the test
    [i == NB_ACTIONS] is [n = 0]; the action of slot [i] is read before
    that test, as in the source. *)
Fixpoint get_next_comb_loop (n : nat) (comb i : Z) (need_inc : bool) (ret : Z)
  : scan_exit :=
  let action := GET_ACTION comb i in
  match n with
  | O => ScanReturn EOA
  | S n' =>
      if (action =? 0) && negb need_inc then ScanBreak ret
      else
        let '(action, need_inc) :=
          if need_inc then
            let action := action + 1 in
            if action =? NB_ACTIONS then (1, true) else (action, false)
          else (action, need_inc) in
        get_next_comb_loop n' comb (i + 1) need_inc
          (Z.lor ret (Z.shiftl action (i * BITS_PER_ACTION)))
  end.

(** [get_next_comb] calls itself on a candidate with a duplicate; [fuel]
    bounds the depth of that recursion and [None] means it ran out. *)
Fixpoint get_next_comb (fuel : nat) (comb : Z) : option Z :=
  match fuel with
  | O => None
  | S fuel' =>
      match get_next_comb_loop (Z.to_nat NB_ACTIONS) comb 0 (* need_inc *) true 0 with
      | ScanReturn v => Some v
      | ScanBreak ret =>
          if negb (has_dup ret =? 0) then get_next_comb fuel' ret
          else Some ret
      end
  end.

(** The combs [run_tests_all_combs] hands to [exec_comb]:
    [comb = get_next_comb(comb)] from [comb], until [EOA].  [steps] bounds
    the number of calls; [None] when [EOA] is not met within them. *)
Fixpoint emitted_combs (steps fuel : nat) (comb : Z) : option (list Z) :=
  match steps with
  | O => None
  | S steps' =>
      match get_next_comb fuel comb with
      | None => None
      | Some c =>
          if c =? EOA then Some []
          else option_map (cons c) (emitted_combs steps' fuel c)
      end
  end.

(** The value returned by the [n]-th successive call
    [comb = get_next_comb(comb)]. *)
Fixpoint comb_iter (n fuel : nat) (comb : Z) : option Z :=
  match n with
  | O => Some comb
  | S n' =>
      match get_next_comb fuel comb with
      | None => None
      | Some c => comb_iter n' fuel c
      end
  end.

(** The actions of a comb, as [exec_comb], [print_comb_name] and
    [has_dup] read them: slot 0 first, up to the first empty slot or
    [NB_ACTIONS] slots. *)
Fixpoint comb_actions_from (n : nat) (comb i : Z) : list Z :=
  match n with
  | O => []
  | S n' =>
      let action := GET_ACTION comb i in
      if action =? 0 then [] else action :: comb_actions_from n' comb (i + 1)
  end.

Definition comb_actions (comb : Z) : list Z :=
  comb_actions_from (Z.to_nat NB_ACTIONS) comb 0.

(** The comb that holds a list of actions, slot 0 in the low bits. *)
Fixpoint comb_of_actions (l : list Z) : Z :=
  match l with
  | [] => 0
  | a :: l' => Z.lor a (Z.shiftl (comb_of_actions l') BITS_PER_ACTION)
  end.

(** ** [check_frame]: the frame oracle

    C [double]s are binary64 floats, each operation rounded to nearest as
    the C compiler does on a target that evaluates [double] expressions in
    [double]; decimal constants denote the nearest binary64 value, as in C. *)

Definition N : Z := 4.
Definition SOURCE_FPS : Z := 25.

Definition FLAG_SKIP : Z := Z.shiftl 1 0.
Definition FLAG_TRIM_DURATION : Z := Z.shiftl 1 1.
Definition FLAG_AUDIO : Z := Z.shiftl 1 2.

Definition TESTVAL_SKIP : float := 7.12%float.
Definition TESTVAL_TRIM_DURATION : float := 53.43%float.

(** [DBL_MAX] of [float.h]. *)
Definition DBL_MAX : float := 0x1.fffffffffffffp+1023%float.

(** Conversion of a non-negative C [int] to [double]. *)
Definition double_of_int (z : Z) : float := PrimFloat.of_uint63 (Uint63.of_Z z).

(** Modelled from the spec: [av_clipd] belongs to libavutil
    ([libavutil/common.h]), which is not among the program's sources; it is
    the specification's [clip(x, lo, hi)], written with the comparisons of
    libavutil's [av_clipd_c]: [if (a < amin) return amin; else if
    (a > amax) return amax; else return a;]. *)
Definition av_clipd (a amin amax : float) : float :=
  if PrimFloat.ltb a amin then amin
  else if PrimFloat.ltb amax a then amax
  else a.

(** The fields of [struct sxplayer_frame] that [check_frame] reads:
    [ts], and the first 32-bit word of the picture [f->data], which
    [check_frame] reads as a [uint32_t], in [data0]. *)
Record sxplayer_frame : Type := {
  data0 : Z;
  ts : float
}.

(** [opt_test_flags & FLAG] as a C condition. *)
Definition flag_set (opt_test_flags flag : Z) : bool :=
  negb (Z.land opt_test_flags flag =? 0).

(** [1./SOURCE_FPS] *)
Definition tolerance : float := (1 / double_of_int SOURCE_FPS)%float.

(** [x > y] on [double]s. *)
Definition double_gt (x y : float) : bool := PrimFloat.ltb y x.

(** The [frame_id] that [check_frame] reads in the pixel [c]. *)
Definition frame_id_of_pixel (c : Z) : Z :=
  let r := Z.land (Z.shiftr c (N + 16)) 0xf in
  let g := Z.land (Z.shiftr c (N + 8)) 0xf in
  let b := Z.land (Z.shiftr c (N + 0)) 0xf in
  Z.lor (Z.lor (Z.shiftl r (N * 2)) (Z.shiftl g N)) b.

(** [check_frame]; the messages to [stderr] are left out. *)
Definition check_frame (f : sxplayer_frame) (t : float) (opt_test_flags : Z) : Z :=
  let skip :=
    if flag_set opt_test_flags FLAG_SKIP then TESTVAL_SKIP else 0%float in
  let trim_duration :=
    if flag_set opt_test_flags FLAG_TRIM_DURATION
    then TESTVAL_TRIM_DURATION else (-1)%float in
  let playback_time :=
    av_clipd t 0%float
      (if PrimFloat.ltb trim_duration 0%float then DBL_MAX else trim_duration) in
  let frame_ts := ts f in
  let estimated_time_from_ts := (frame_ts - skip)%float in
  let diff_ts := PrimFloat.abs (playback_time - estimated_time_from_ts)%float in
  let color_failure :=
    if negb (flag_set opt_test_flags FLAG_AUDIO) then
      let c := data0 f in
      let frame_id := frame_id_of_pixel c in
      let video_ts :=
        (double_of_int frame_id * 1 / double_of_int SOURCE_FPS)%float in
      let estimated_time_from_color := (video_ts - skip)%float in
      let diff_color :=
        PrimFloat.abs (playback_time - estimated_time_from_color)%float in
      double_gt diff_color tolerance
    else false in
  if color_failure then -1
  else if double_gt diff_ts tolerance then -1
  else 0.

(** The locals of [check_frame], by name. *)
Definition skip_of (opt_test_flags : Z) : float :=
  if flag_set opt_test_flags FLAG_SKIP then TESTVAL_SKIP else 0%float.

Definition trim_bound (opt_test_flags : Z) : float :=
  if flag_set opt_test_flags FLAG_TRIM_DURATION
  then TESTVAL_TRIM_DURATION else DBL_MAX.

Definition playback_time (t : float) (opt_test_flags : Z) : float :=
  av_clipd t 0%float (trim_bound opt_test_flags).

Definition diff_ts (f : sxplayer_frame) (t : float) (opt_test_flags : Z) : float :=
  PrimFloat.abs
    (playback_time t opt_test_flags - (ts f - skip_of opt_test_flags))%float.

Definition diff_color (f : sxplayer_frame) (t : float) (opt_test_flags : Z) : float :=
  PrimFloat.abs
    (playback_time t opt_test_flags
     - (double_of_int (frame_id_of_pixel (data0 f)) * 1
        / double_of_int SOURCE_FPS - skip_of opt_test_flags))%float.

(** A [double] that is a number: [x == x] in C. *)
Definition is_number (x : float) : bool := PrimFloat.eqb x x.

(** The pixel whose colour fields hold [frame_id], reserved bits 0. *)
Definition pixel_of_frame_id (frame_id : Z) : Z :=
  Z.lor (Z.lor (Z.shiftl (Z.land (Z.shiftr frame_id 8) 0xf) 20)
               (Z.shiftl (Z.land (Z.shiftr frame_id 4) 0xf) 12))
        (Z.shiftl (Z.land frame_id 0xf) 4).

(** The frame id [n] is read back from the pixel that holds it. *)
Definition frame_id_roundtrips (n : nat) : bool :=
  frame_id_of_pixel (pixel_of_frame_id (Z.of_nat n)) =? Z.of_nat n.

(** [observed] is within one source-frame period of [expected]: the
    difference is not greater than [1./SOURCE_FPS]. *)
Definition within_tolerance (expected observed : float) : bool :=
  negb (double_gt (PrimFloat.abs (expected - observed)%float) tolerance).

(** The verdict of the oracle for an expected playback time, in the words
    of the specification: the colour-derived time first, on video frames,
    then the timestamp, each less the skew. *)
Definition verdict (expected : float) (f : sxplayer_frame) (skew : float)
  (audio : bool) : Z :=
  let video_ts :=
    (double_of_int (frame_id_of_pixel (data0 f)) * 1
     / double_of_int SOURCE_FPS)%float in
  if negb audio && negb (within_tolerance expected (video_ts - skew)%float)
  then -1
  else if negb (within_tolerance expected (ts f - skew)%float) then -1
  else 0.

(** ** The player API

    Modelled from the spec: the player ([sxplayer.h] and the library behind
    it) is not among the program's sources.  Section 6 of the
    specification gives the calls the harness makes: prefetch(session) ->
    ok or failure, get_info(session) -> width, height or failure,
    get_frame(session, time) -> frame or absent, get_next_frame(session)
    -> frame or absent, release_frame(frame).  A session is a state [ctx]
    that each call may change; a failure is a negative [int], and an
    absent frame is [None], the [NULL] pointer. *)

Record sxplayer_info : Type := {
  width : Z;
  height : Z
}.

Class Player (ctx : Type) : Type := {
  sxplayer_prefetch : ctx -> Z * ctx;
  sxplayer_get_info : ctx -> Z * sxplayer_info * ctx;
  sxplayer_get_frame : ctx -> float -> option sxplayer_frame * ctx;
  sxplayer_get_next_frame : ctx -> option sxplayer_frame * ctx
}.

(** A frame pointer: [NULL], or a frame with the number that tells it from
    the other frames handed out. *)
Definition frame_ptr : Type := option (nat * sxplayer_frame).

Section Executor.

Context {ctx : Type} {P : Player ctx}.

(** What the harness acts on: the session; the frames handed out by the
    player and the frames given back with [sxplayer_release_frame], in the
    order of the calls; the actions called through [actions_desc], a log
    kept for the statements below; and the lines printed. *)
Record world : Type := {
  session : ctx;
  acquired : list nat;
  released : list nat;
  invoked : list Z;
  stdout : list string
}.

(** A computation of the harness: it runs from a world to a result and a
    world, or has no defined behaviour ([None]): a [NULL] frame read by
    [check_frame], a read past the end of [actions_desc], a call of a
    [NULL] function pointer. *)
Definition M (A : Type) : Type := world -> option (A * world).

Definition ret {A : Type} (x : A) : M A := fun w => Some (x, w).

Definition undefined {A : Type} : M A := fun _ => None.

Definition bind {A B : Type} (m : M A) (k : A -> M B) : M B :=
  fun w => match m w with
           | None => None
           | Some (x, w') => k x w'
           end.

(** A computation that leaves the log of called actions as it was. *)
Definition keeps_log {A : Type} (m : M A) : Prop :=
  forall w x w', m w = Some (x, w') -> invoked w' = invoked w.

Notation "x <- m ;; k" := (bind m (fun x => k))
  (at level 61, m at next level, right associativity).
Notation "m ;;; k" := (bind m (fun _ => k))
  (at level 61, right associativity).

Definition with_session (w : world) (s : ctx) : world :=
  {| session := s; acquired := acquired w; released := released w;
     invoked := invoked w; stdout := stdout w |}.

(** A frame handed out gets the next number. *)
Definition hand_out (w : world) (s : ctx) (f : option sxplayer_frame)
  : frame_ptr * world :=
  match f with
  | None => (None, with_session w s)
  | Some fr =>
      let id := length (acquired w) in
      (Some (id, fr),
       {| session := s; acquired := acquired w ++ [id];
          released := released w; invoked := invoked w; stdout := stdout w |})
  end.

Definition prefetch : M Z :=
  fun w => let '(r, s) := sxplayer_prefetch (session w) in
           Some (r, with_session w s).

Definition get_info : M (Z * sxplayer_info) :=
  fun w => let '(r, info, s) := sxplayer_get_info (session w) in
           Some ((r, info), with_session w s).

Definition get_frame (t : float) : M frame_ptr :=
  fun w => let '(f, s) := sxplayer_get_frame (session w) t in
           Some (hand_out w s f).

Definition get_next_frame : M frame_ptr :=
  fun w => let '(f, s) := sxplayer_get_next_frame (session w) in
           Some (hand_out w s f).

(** [sxplayer_release_frame]; on [NULL] it does nothing, which
    [run_notavail_file_test] relies on. *)
Definition release_frame (p : frame_ptr) : M unit :=
  match p with
  | None => ret tt
  | Some (id, _) =>
      fun w => Some (tt, {| session := session w; acquired := acquired w;
                            released := released w ++ [id];
                            invoked := invoked w; stdout := stdout w |})
  end.

(** [check_frame] on a frame pointer: it reads [f->ts] first. *)
Definition check (p : frame_ptr) (t : float) (opt_test_flags : Z) : M Z :=
  match p with
  | None => undefined
  | Some (_, f) => ret (check_frame f t opt_test_flags)
  end.

(** ** The actions *)

Definition action_prefetch (opt_test_flags : Z) : M Z := prefetch.

Definition action_fetch_info (opt_test_flags : Z) : M Z :=
  ri <- get_info ;;
  let '(r, info) := ri in
  if r <? 0 then ret r
  else if negb (width info =? 16) || negb (height info =? 16) then ret (-1)
  else ret 0.

Definition action_start (opt_test_flags : Z) : M Z :=
  frame <- get_frame 0%float ;;
  r <- check frame 0%float opt_test_flags ;;
  if r <? 0 then ret r
  else release_frame frame ;;; ret 0.

(** [(ret = check_frame(f, t, flags)) < 0 || ...]: the checks run in
    order up to the first negative result; the value is that of [ret]
    afterwards, [last] when there is no check. *)
Fixpoint check_frames (l : list (frame_ptr * float)) (opt_test_flags last : Z)
  : M Z :=
  match l with
  | [] => ret last
  | (f, t) :: l' =>
      r <- check f t opt_test_flags ;;
      if r <? 0 then ret r else check_frames l' opt_test_flags r
  end.

Definition frame_period (n : Z) : float :=
  (double_of_int n / double_of_int SOURCE_FPS)%float.

Definition action_middle (opt_test_flags : Z) : M Z :=
  f0 <- get_frame 30.0%float ;;
  f1 <- get_frame 30.1%float ;;
  f2 <- get_frame 30.2%float ;;
  f3 <- get_frame 15.0%float ;;
  f4 <- get_next_frame ;;
  f5 <- get_next_frame ;;
  r <- check_frames
         [(f0, 30.0%float); (f1, 30.1%float); (f2, 30.2%float);
          (f3, 15.0%float); (f4, (15.0 + frame_period 1)%float);
          (f5, (15.0 + frame_period 2)%float)] opt_test_flags 0 ;;
  if r <? 0 then ret r
  else
    release_frame f0 ;;;
    release_frame f5 ;;;
    release_frame f1 ;;;
    release_frame f4 ;;;
    release_frame f2 ;;;
    release_frame f3 ;;;
    f0 <- get_next_frame ;;
    f1 <- get_frame 16.0%float ;;
    f2 <- get_frame 16.001%float ;;
    r <- check_frames
           [(f0, (15.0 + frame_period 3)%float); (f1, 16.0%float)]
           opt_test_flags 0 ;;
    if r <? 0 then ret r
    else
      match f2 with
      | Some _ => ret (-1)
      | None =>
          release_frame f1 ;;;
          release_frame f0 ;;;
          ret 0
      end.

Definition action_end (opt_test_flags : Z) : M Z :=
  f <- get_frame 999999.0%float ;;
  match f with
  | None => ret (-1)
  | Some _ =>
      release_frame f ;;;
      f <- get_frame 99999.0%float ;;
      match f with
      | Some _ => release_frame f ;;; ret (-1)
      | None => ret 0
      end
  end.

(** ** [actions_desc], [print_comb_name] and [exec_comb] *)

(** [actions_desc[action]], for the indices that the initialiser fills;
    index 0 holds null pointers and the array ends at [ACTION_END]. *)
Definition actions_desc (action : Z) : option (string * (Z -> M Z)) :=
  if action =? ACTION_PREFETCH then Some ("prefetch"%string, action_prefetch)
  else if action =? ACTION_FETCH_INFO then Some ("fetchinfo"%string, action_fetch_info)
  else if action =? ACTION_START then Some ("start"%string, action_start)
  else if action =? ACTION_MIDDLE then Some ("middle"%string, action_middle)
  else if action =? ACTION_END then Some ("end"%string, action_end)
  else None.

Fixpoint comb_name_loop (n : nat) (comb i : Z) : option string :=
  match n with
  | O => Some EmptyString
  | S n' =>
      let action := GET_ACTION comb i in
      if action =? 0 then Some EmptyString
      else
        match actions_desc action, comb_name_loop n' comb (i + 1) with
        | Some (name, _), Some rest =>
            Some ((if (i =? 0)%Z then "" else "-") ++ name ++ rest)%string
        | _, _ => None
        end
  end.

Definition print_comb_name (comb opt_test_flags : Z) : M unit :=
  match comb_name_loop (Z.to_nat NB_ACTIONS) comb 0 with
  | None => undefined
  | Some names =>
      fun w =>
        let line :=
          (":: test-"
             ++ (if flag_set opt_test_flags FLAG_AUDIO then "audio" else "video")
             ++ "-"
             ++ (if flag_set opt_test_flags FLAG_SKIP then "skip-" else "")
             ++ (if flag_set opt_test_flags FLAG_TRIM_DURATION
                 then "trimdur-" else "")
             ++ names)%string in
        Some (tt, {| session := session w; acquired := acquired w;
                     released := released w; invoked := invoked w;
                     stdout := stdout w ++ [line] |})
  end.

(** [actions_desc[action].func(s, opt_test_flags)], noted in [invoked]. *)
Definition call_action (action opt_test_flags : Z) : M Z :=
  match actions_desc action with
  | None => undefined
  | Some (_, func) =>
      fun w => func opt_test_flags
                 {| session := session w; acquired := acquired w;
                    released := released w;
                    invoked := invoked w ++ [action]; stdout := stdout w |}
  end.

Fixpoint exec_comb_loop (n : nat) (comb i opt_test_flags : Z) : M Z :=
  match n with
  | O => ret 0
  | S n' =>
      let action := GET_ACTION comb i in
      if action =? 0 then ret 0
      else
        r <- call_action action opt_test_flags ;;
        if r <? 0 then ret r
        else exec_comb_loop n' comb (i + 1) opt_test_flags
  end.

Definition exec_comb (comb opt_test_flags : Z) : M Z :=
  print_comb_name comb opt_test_flags ;;;
  exec_comb_loop (Z.to_nat NB_ACTIONS) comb 0 opt_test_flags.

(** The executor in the words of the specification: the actions of the
    sequence in order, up to the first that fails. *)
Fixpoint run_sequence (actions : list Z) (opt_test_flags : Z) : M Z :=
  match actions with
  | [] => ret 0
  | a :: rest =>
      r <- call_action a opt_test_flags ;;
      if r <? 0 then ret r else run_sequence rest opt_test_flags
  end.

End Executor.

Arguments world : clear implicits.
Arguments M : clear implicits.

(** A player that plays a script: the answers to the successive requests
    for a frame; it has nothing to prefetch and reports a 16x16 stream. *)
#[local] Instance scripted_player : Player (list (option sxplayer_frame)) := {|
  sxplayer_prefetch := fun s => (0, s);
  sxplayer_get_info := fun s => (0, {| width := 16; height := 16 |}, s);
  sxplayer_get_frame := fun s _ =>
    match s with
    | [] => (None, [])
    | f :: s' => (f, s')
    end;
  sxplayer_get_next_frame := fun s =>
    match s with
    | [] => (None, [])
    | f :: s' => (f, s')
    end
|}.

(** The frame of the stream with a given frame id. *)
Definition stream_frame (frame_id : Z) : sxplayer_frame :=
  {| data0 := pixel_of_frame_id frame_id;
     ts := (double_of_int frame_id / double_of_int SOURCE_FPS)%float |}.

(** A player stuck on the first frame of the stream. *)
Definition stuck_script (n : nat) : list (option sxplayer_frame) :=
  repeat (Some (stream_frame 0)) n.

(** The answers [action_middle] expects of a player, without skew or trim. *)
Definition middle_script : list (option sxplayer_frame) :=
  [Some (stream_frame 750); Some (stream_frame 752); Some (stream_frame 755);
   Some (stream_frame 375); Some (stream_frame 376); Some (stream_frame 377);
   Some (stream_frame 378); Some (stream_frame 400); None].

Definition fresh_world {ctx : Type} (s : ctx) : world ctx :=
  {| session := s; acquired := []; released := []; invoked := [];
     stdout := [] |}.

(** ** Sequences, as the specification speaks of them *)

(** The number of actions other than the terminator. *)
Definition K : Z := NB_ACTIONS - 1.

(** A sequence: 1 to [K] actions among [1..K], none of them twice. *)
Definition valid_sequence (s : list Z) : Prop :=
  (1 <= length s <= Z.to_nat K)%nat /\ NoDup s /\ Forall (fun a => 1 <= a <= K) s.

Definition memZ (a : Z) (l : list Z) : bool := existsb (Z.eqb a) l.

Fixpoint nodupb (l : list Z) : bool :=
  match l with
  | [] => true
  | a :: l' => negb (memZ a l') && nodupb l'
  end.

Definition valid_sequenceb (s : list Z) : bool :=
  (1 <=? length s)%nat && (length s <=? Z.to_nat K)%nat && nodupb s
  && forallb (fun a => (1 <=? a) && (a <=? K)) s.

(** Every list of length [n] over an alphabet. *)
Fixpoint lists_of_length (alphabet : list Z) (n : nat) : list (list Z) :=
  match n with
  | O => [[]]
  | S n' =>
      flat_map (fun l => map (fun a => a :: l) alphabet)
        (lists_of_length alphabet n')
  end.

Definition list_eqb (l1 l2 : list Z) : bool :=
  (length l1 =? length l2)%nat && forallb (fun p => fst p =? snd p) (combine l1 l2).

Fixpoint nodup_listsb (ll : list (list Z)) : bool :=
  match ll with
  | [] => true
  | l :: ll' => negb (existsb (list_eqb l) ll') && nodup_listsb ll'
  end.

(** [sum_{n=1..k} k!/(k-n)!], the number of sequences the specification
    announces for [k] actions. *)
Definition arrangements (k n : nat) : nat := Nat.div (fact k) (fact (k - n)).

Definition nb_sequences (k : nat) : nat :=
  fold_right Nat.add O (map (arrangements k) (seq 1 k)).

(** The combs emitted from the empty sequence, in order. *)
Definition enumeration : list Z :=
  Eval vm_compute in
    match emitted_combs 400 400 0 with Some l => l | None => [] end.

Fixpoint increasing (l : list Z) : bool :=
  match l with
  | a :: (b :: _) as l' => (a <? b) && increasing l'
  | _ => true
  end.

Fixpoint nondecreasing_nat (l : list nat) : bool :=
  match l with
  | a :: (b :: _) as l' => (a <=? b)%nat && nondecreasing_nat l'
  | _ => true
  end.

(** The actions met so far, [seen], against the ones to come. *)
Fixpoint fresh_scan (seen l : list Z) : bool :=
  match l with
  | [] => true
  | a :: l' => negb (memZ a seen) && fresh_scan (a :: seen) l'
  end.

(** The candidate the loop of [get_next_comb] builds from [comb]. *)
Definition next_candidate (comb : Z) : scan_exit :=
  get_next_comb_loop (Z.to_nat NB_ACTIONS) comb 0 true 0.

(** Every valid list of a given length is among the emitted sequences. *)
Definition covered (n : nat) : bool :=
  forallb (fun s => if valid_sequenceb s
                    then existsb (list_eqb s) (map comb_actions enumeration)
                    else true)
    (lists_of_length [1; 2; 3; 4; 5] n).

(** ** The scan of [get_next_comb], slot by slot

    The loop of [get_next_comb] reads its argument one slot at a time and
    never looks at the bits above slot [NB_ACTIONS - 1].  The functions below
    give, from the list of slots of the argument, the slots of the
    candidate, or [None] when the loop reaches slot [NB_ACTIONS]. *)

(** The [n] slots of [comb] from slot [i] on. *)
Fixpoint slots (n : nat) (comb i : Z) : list Z :=
  match n with
  | O => []
  | S n' => GET_ACTION comb i :: slots n' comb (i + 1)
  end.

Fixpoint undigits (ds : list Z) : Z :=
  match ds with
  | [] => 0
  | d :: ds' => d + 16 * undigits ds'
  end.

(** [need_inc] is 0: slots are copied up to the first empty one. *)
Fixpoint copy_slots (ds : list Z) : option (list Z) :=
  match ds with
  | [] => None
  | d :: ds' =>
      if d =? 0 then Some (repeat 0 (length ds))
      else option_map (cons d) (copy_slots ds')
  end.

(** The same when the slot before held 15: [action << (i*BITS_PER_ACTION)]
    with [action = 16] has set the low bit of this slot. *)
Definition copy_slots_carry (ds : list Z) : option (list Z) :=
  match ds with
  | [] => None
  | d :: ds' =>
      if d =? 0 then Some (1 :: repeat 0 (length ds'))
      else option_map (cons (Z.lor 1 d)) (copy_slots ds')
  end.

(** [need_inc] is 1. *)
Fixpoint inc_slots (ds : list Z) : option (list Z) :=
  match ds with
  | [] => None
  | d :: ds' =>
      if d + 1 =? NB_ACTIONS then option_map (cons 1) (inc_slots ds')
      else if d + 1 =? 16 then option_map (cons 0) (copy_slots_carry ds')
      else option_map (cons (d + 1)) (copy_slots ds')
  end.

(** The value of the slots before the first empty one. *)
Fixpoint prefix_value (ds : list Z) : Z :=
  match ds with
  | [] => 0
  | d :: ds' => if d =? 0 then 0 else d + 16 * prefix_value ds'
  end.

(** The number of slots that hold no action of [enum action]. *)
Fixpoint stray (ds : list Z) : Z :=
  match ds with
  | [] => 0
  | d :: ds' => (if NB_ACTIONS <=? d then 1 else 0) + stray ds'
  end.

(** What decreases along the recursion of [get_next_comb]. *)
Definition measure (comb : Z) : Z :=
  let ds := slots (Z.to_nat NB_ACTIONS) comb 0 in
  (stray ds + 1) * 16 ^ NB_ACTIONS - prefix_value ds.

Definition slot_ok (d : Z) : Prop := 0 <= d < 16.

(** ** More on the enumerator *)

(** The slots before the first empty one. *)
Fixpoint live_prefix (ds : list Z) : list Z :=
  match ds with
  | [] => []
  | d :: ds' => if d =? 0 then [] else d :: live_prefix ds'
  end.

(** The first emitted comb above [c], [EOA] when there is none. *)
Definition least_greater (c : Z) : Z :=
  match find (fun x => c <? x) enumeration with
  | Some x => x
  | None => EOA
  end.

(** The lists of at most [K] actions among [1..K], with or without
    duplicates. *)
Definition action_lists : list (list Z) :=
  flat_map (lists_of_length [1; 2; 3; 4; 5]) [0; 1; 2; 3; 4; 5]%nat.

Definition successor_checked (s : list Z) : bool :=
  let c := comb_of_actions s in
  match get_next_comb 256 c with
  | Some r =>
      (r =? least_greater c)
      && ((r =? EOA) && forallb (fun x => x <=? c) enumeration
          || memZ r enumeration && (c <? r)
             && forallb (fun x => if c <? x then r <=? x else true) enumeration)
  | None => false
  end.

(** ** More on the executor *)

(** The name of an action in [actions_desc]. *)
Definition action_name (action : Z) : string :=
  if action =? ACTION_PREFETCH then "prefetch"
  else if action =? ACTION_FETCH_INFO then "fetchinfo"
  else if action =? ACTION_START then "start"
  else if action =? ACTION_MIDDLE then "middle"
  else if action =? ACTION_END then "end"
  else "".

(** What [print_comb_name] prints before the names of the actions. *)
Definition name_prefix (opt_test_flags : Z) : string :=
  (":: test-"
     ++ (if flag_set opt_test_flags FLAG_AUDIO then "audio" else "video")
     ++ "-"
     ++ (if flag_set opt_test_flags FLAG_SKIP then "skip-" else "")
     ++ (if flag_set opt_test_flags FLAG_TRIM_DURATION then "trimdur-" else ""))%string.

(** The names of a list of actions as [print_comb_name] joins them;
    [first] tells whether the list starts at slot 0. *)
Fixpoint names_from {ctx : Type} {P : Player ctx} (first : bool) (l : list Z)
  : option string :=
  match l with
  | [] => Some EmptyString
  | a :: l' =>
      match actions_desc a, names_from false l' with
      | Some (name, _), Some rest =>
          Some ((if first then "" else "-") ++ name ++ rest)%string
      | _, _ => None
      end
  end.

Definition add_line {ctx : Type} (w : world ctx) (line : string) : world ctx :=
  {| session := session w; acquired := acquired w; released := released w;
     invoked := invoked w; stdout := stdout w ++ [line] |}.

(** The frames in order: the frames handed out are numbered from 0 in
    the order of the requests, and the frames given back are frames
    handed out, each given back at most once. *)
Definition frames_ok {ctx : Type} (w : world ctx) : Prop :=
  acquired w = seq 0 (length (acquired w))
  /\ NoDup (released w)
  /\ incl (released w) (acquired w).

(** A computation that gets [k] new frames and gives back, once each,
    only frames among them. *)
Definition frame_safe {ctx : Type} {A : Type} (m : M ctx A) : Prop :=
  forall w x w',
    m w = Some (x, w') ->
    exists k l',
      acquired w' = acquired w ++ seq (length (acquired w)) k
      /\ released w' = released w ++ l'
      /\ NoDup l'
      /\ incl l' (seq (length (acquired w)) k).

(** 1 for a frame, 0 for [NULL]. *)
Definition got (p : frame_ptr) : nat :=
  match p with
  | None => 0
  | Some _ => 1
  end.

(** ** More on the oracle *)

(** The time of the frame [frame_id] of the stream. *)
Definition frame_time (frame_id : Z) : float :=
  (double_of_int frame_id / double_of_int SOURCE_FPS)%float.

(** At the time of frame [n], without skew or trim, the frame [n] passes
    and the frames two periods away, before and after, fail. *)
Definition oracle_tells_apart (n : nat) : bool :=
  let id := Z.of_nat n in
  (check_frame (stream_frame id) (frame_time id) 0 =? 0)
  && (check_frame (stream_frame (id + 2)) (frame_time id) 0 =? -1)
  && (check_frame (stream_frame id) (frame_time (id + 2)) 0 =? -1).

(** ** Sessions: [run_tests_all_combs] and [test_next_frame]

    Modelled from the spec: the life cycle of a session is the player's
    ([sxplayer.h] is not among the program's sources).  Section 6 of the
    specification gives create(source) -> session or failure,
    set_option(session, name, value) and destroy(session).  The answer to
    a request for a session may change from one request to the next:
    [sxplayer_create filename n] is the answer when [n] sessions were
    created before.  The value of [SXPLAYER_SELECT_AUDIO] is the header's.
    [sxplayer_set_log_callback s arg] registers [log_callback] with its
    argument [arg]; the calls the player then makes to it are the
    player's, and are not part of this model. *)

Inductive option_value : Type :=
| OptInt (v : Z)
| OptDouble (v : float).

Class Library (ctx : Type) : Type := {
  sxplayer_create : string -> nat -> option ctx;
  sxplayer_set_option : ctx -> string -> option_value -> ctx;
  sxplayer_set_log_callback : ctx -> string -> ctx;
  SXPLAYER_SELECT_AUDIO : Z
}.

Section Sessions.

Context {ctx : Type} {P : Player ctx} {L : Library ctx}.

(** What a test acts on between two sessions: the logs of [world], and
    the numbers of sessions created and of sessions freed. *)
Record harness : Type := {
  frames_got : list nat;
  frames_back : list nat;
  actions_run : list Z;
  printed : list string;
  sessions_created : nat;
  sessions_freed : nat
}.

(** The world of a session just created. *)
Definition world_of (s : ctx) (st : harness) : world ctx :=
  {| session := s; acquired := frames_got st; released := frames_back st;
     invoked := actions_run st; stdout := printed st |}.

(** [sxplayer_free(&s)] on the session of [w]. *)
Definition free_session (w : world ctx) (st : harness) : harness :=
  {| frames_got := acquired w; frames_back := released w;
     actions_run := invoked w; printed := stdout w;
     sessions_created := sessions_created st;
     sessions_freed := S (sessions_freed st) |}.

Definition session_created (st : harness) : harness :=
  {| frames_got := frames_got st; frames_back := frames_back st;
     actions_run := actions_run st; printed := printed st;
     sessions_created := S (sessions_created st);
     sessions_freed := sessions_freed st |}.

(** The options [run_tests_all_combs] sets on a new session. *)
Definition set_test_options (s : ctx) (opt_test_flags : Z) : ctx :=
  let s := sxplayer_set_option s "auto_hwaccel" (OptInt 0) in
  let s := if flag_set opt_test_flags FLAG_SKIP
           then sxplayer_set_option s "skip" (OptDouble TESTVAL_SKIP) else s in
  let s := if flag_set opt_test_flags FLAG_TRIM_DURATION
           then sxplayer_set_option s "trim_duration"
                  (OptDouble TESTVAL_TRIM_DURATION)
           else s in
  if flag_set opt_test_flags FLAG_AUDIO
  then sxplayer_set_option s "avselect" (OptInt SXPLAYER_SELECT_AUDIO) else s.

(** The [for (;;)] loop of [run_tests_all_combs] and what follows it.
    [steps] bounds the number of iterations and [fuel] the recursion of
    [get_next_comb]; [ret] is [None] as long as the C variable is not
    assigned, and returning it then has no defined value.  The message to
    [stderr] is left out. *)
Fixpoint run_tests_all_combs_loop (steps fuel : nat) (filename : string)
  (opt_test_flags comb : Z) (ret : option Z) (st : harness)
  : option (Z * harness) :=
  match steps with
  | O => None
  | S steps' =>
      match sxplayer_create filename (sessions_created st) with
      | None => Some (-1, st)
      | Some s =>
          let st := session_created st in
          let s := set_test_options s opt_test_flags in
          match get_next_comb fuel comb with
          | None => None
          | Some comb =>
              if comb =? EOA then
                match ret with
                | None => None
                | Some r => Some (r, free_session (world_of s st) st)
                end
              else
                match exec_comb comb opt_test_flags (world_of s st) with
                | None => None
                | Some (r, w) =>
                    if r <? 0 then Some (r, free_session w st)
                    else run_tests_all_combs_loop steps' fuel filename
                           opt_test_flags comb (Some r) (free_session w st)
                end
          end
      end
  end.

Definition run_tests_all_combs (steps fuel : nat) (filename : string)
  (opt_test_flags : Z) (st : harness) : option (Z * harness) :=
  run_tests_all_combs_loop steps fuel filename opt_test_flags 0 None st.

(** The inner [for (;;)] loop of [test_next_frame]: frames are requested
    one after the other up to the first [NULL]; [i] counts them.  [fuel]
    bounds the number of frames; what is printed is left out. *)
Fixpoint next_frames (fuel : nat) (i : Z) : M ctx Z :=
  match fuel with
  | O => undefined
  | S fuel' =>
      bind get_next_frame (fun frame =>
        match frame with
        | None => ret i
        | Some _ => bind (release_frame frame) (fun _ => next_frames fuel' (i + 1))
        end)
  end.

(** [test_next_frame]: two runs of the loop on one session.  The session
    is not tested for [NULL], and setting an option on [NULL] has no
    defined behaviour. *)
Definition test_next_frame (fuel : nat) (filename : string) (st : harness)
  : option (Z * harness) :=
  match sxplayer_create filename (sessions_created st) with
  | None => None
  | Some s =>
      let st := session_created st in
      let s := sxplayer_set_option s "auto_hwaccel" (OptInt 0) in
      match bind (next_frames fuel 0) (fun i => next_frames fuel i)
              (world_of s st) with
      | None => None
      | Some (_, w) => Some (0, free_session w st)
      end
  end.

(** The file name of [run_notavail_file_test]. *)
Definition filename : string := "/i/do/not/exist".

(** [run_notavail_file_test]: three frames are requested, each handed to
    [sxplayer_release_frame] as it comes, [NULL] or not. *)
Definition run_notavail_file_test (st : harness) : option (Z * harness) :=
  match sxplayer_create filename (sessions_created st) with
  | None => Some (-1, st)
  | Some s =>
      let st := session_created st in
      let s := sxplayer_set_log_callback s filename in
      match bind (get_frame (-1)%float) (fun f =>
            bind (release_frame f) (fun _ =>
            bind (get_frame 1.0%float) (fun f =>
            bind (release_frame f) (fun _ =>
            bind (get_frame 3.0%float) (fun f =>
            release_frame f)))))
              (world_of s st) with
      | None => None
      | Some (_, w) => Some (0, free_session w st)
      end
  end.

End Sessions.

(** Whether the frames of a harness are in order, as [frames_ok] for a
    world. *)
Definition frames_in_order (st : harness) : Prop :=
  frames_got st = seq 0 (length (frames_got st))
  /\ NoDup (frames_back st)
  /\ incl (frames_back st) (frames_got st).

(** A library whose sessions are scripted players: the [n]-th session
    created plays the [n]-th script, and there is no session past the
    last script.  Options are accepted and change nothing. *)
#[local] Instance scripted_library
  (sessions : list (list (option sxplayer_frame)))
  : Library (list (option sxplayer_frame)) := {|
  sxplayer_create := fun _ n => nth_error sessions n;
  sxplayer_set_option := fun s _ _ => s;
  sxplayer_set_log_callback := fun s _ => s;
  SXPLAYER_SELECT_AUDIO := 1
|}.

(** The answers an action expects of a player, without skew or trim. *)
Definition script_of_action (action : Z) : list (option sxplayer_frame) :=
  if action =? ACTION_START then [Some (stream_frame 0)]
  else if action =? ACTION_MIDDLE then middle_script
  else if action =? ACTION_END then [Some (stream_frame 1500); None]
  else [].

(** One session for each sequence of the enumeration, which plays what
    its sequence expects, and one more. *)
Definition obliging_sessions : list (list (option sxplayer_frame)) :=
  map (fun comb => concat (map script_of_action (comb_actions comb)))
      enumeration ++ [[]].

Definition fresh_harness : harness :=
  {| frames_got := []; frames_back := []; actions_run := []; printed := [];
     sessions_created := 0; sessions_freed := 0 |}.

(** The harness after a sweep without skew or trim over the obliging
    sessions. *)
Definition obliging_sweep_end : harness :=
  Eval vm_compute in
    match @run_tests_all_combs _ scripted_player
            (scripted_library obliging_sessions) 326 256 "media.mkv" 0
            fresh_harness with
    | Some (_, st) => st
    | None => fresh_harness
    end.

(** * Properties *)

(** ** Slots of a comb *)

Lemma GET_ACTION_mod (c i : Z) :
  0 <= i -> GET_ACTION c i = (c / 16 ^ i) mod 16.
Proof.
  intros Hi. unfold GET_ACTION, BITS_PER_ACTION.
  change (Z.shiftl 1 4 - 1) with (Z.ones 4).
  rewrite Z.land_ones by lia.
  rewrite Z.shiftr_div_pow2 by lia.
  rewrite Z.mul_comm, Z.pow_mul_r by lia.
  reflexivity.
Qed.

Lemma GET_ACTION_range (c i : Z) : 0 <= GET_ACTION c i < 16.
Proof.
  unfold GET_ACTION, BITS_PER_ACTION.
  change (Z.shiftl 1 4 - 1) with (Z.ones 4).
  rewrite Z.land_ones by lia.
  apply Z.mod_pos_bound. reflexivity.
Qed.

Example get_next_comb_empty : get_next_comb 1 0 = Some 1.
Proof. reflexivity. Qed.

Example get_next_comb_wrap : get_next_comb 2 5 = Some 0x12.
Proof. reflexivity. Qed.

(** ** Decidable counterparts *)

Lemma memZ_In (a : Z) (l : list Z) : memZ a l = true <-> In a l.
Proof.
  unfold memZ. rewrite existsb_exists. split.
  - intros [x [Hx Heq]]. apply Z.eqb_eq in Heq. now subst.
  - intros H. exists a. split; [assumption | apply Z.eqb_refl].
Qed.

Lemma memZ_not_In (a : Z) (l : list Z) : memZ a l = false <-> ~ In a l.
Proof.
  rewrite <- memZ_In. destruct (memZ a l); split; congruence.
Qed.

Lemma nodupb_NoDup (l : list Z) : nodupb l = true <-> NoDup l.
Proof.
  induction l as [|a l IH]; simpl.
  - split; [constructor | reflexivity].
  - rewrite andb_true_iff, negb_true_iff, memZ_not_In, IH. split.
    + intros [H1 H2]. now constructor.
    + intros H. inversion H; subst. now split.
Qed.

Lemma valid_sequenceb_spec (s : list Z) :
  valid_sequenceb s = true <-> valid_sequence s.
Proof.
  unfold valid_sequenceb, valid_sequence.
  rewrite !andb_true_iff, !Nat.leb_le, nodupb_NoDup, forallb_forall, Forall_forall.
  split.
  - intros [[[H1 H2] H3] H4]. repeat split; try assumption;
      apply H4 in H; apply andb_true_iff in H; destruct H; lia.
  - intros [[H1 H2] [H3 H4]]. repeat split; try assumption.
    intros a Ha. apply H4 in Ha. apply andb_true_iff. split; lia.
Qed.

Lemma list_eqb_eq (l1 l2 : list Z) : list_eqb l1 l2 = true <-> l1 = l2.
Proof.
  unfold list_eqb. revert l2.
  induction l1 as [|a l1 IH]; intros [|b l2]; simpl; try (split; congruence).
  specialize (IH l2). split.
    + intros H. apply andb_true_iff in H. destruct H as [H1 H2].
      apply andb_true_iff in H2. destruct H2 as [H2 H3].
      apply Z.eqb_eq in H2. subst b. f_equal. apply IH.
      now rewrite H1, H3.
    + intros H. inversion H; subst. rewrite Z.eqb_refl. simpl.
      apply IH. reflexivity.
Qed.

Lemma nodup_listsb_NoDup (ll : list (list Z)) :
  nodup_listsb ll = true -> NoDup ll.
Proof.
  induction ll as [|l ll IH]; simpl; intros H; constructor.
  - apply andb_true_iff in H. destruct H as [H _].
    apply negb_true_iff in H. intros Hin.
    assert (existsb (list_eqb l) ll = true) as E; [|congruence].
    apply existsb_exists. exists l. split; [assumption | now apply list_eqb_eq].
  - apply andb_true_iff in H. now apply IH.
Qed.

Lemma lists_of_length_complete (alphabet : list Z) (l : list Z) :
  Forall (fun a => In a alphabet) l ->
  In l (lists_of_length alphabet (length l)).
Proof.
  induction 1 as [|a l Ha _ IH]; simpl.
  - now left.
  - apply in_flat_map. exists l. split; [assumption|].
    exact (in_map (fun b => b :: l) alphabet a Ha).
Qed.

(** ** [has_dup] decides whether an action occurs twice *)

Lemma land_bit (m a : Z) :
  0 <= a -> (Z.land m (Z.shiftl 1 a) =? 0) = negb (Z.testbit m a).
Proof.
  intros Ha. rewrite Z.shiftl_1_l.
  destruct (Z.testbit m a) eqn:E; simpl.
  - apply Z.eqb_neq. intros H.
    assert (Z.testbit (Z.land m (2 ^ a)) a = true) as T.
    { rewrite Z.land_spec, E, Z.pow2_bits_true by lia. reflexivity. }
    rewrite H, Z.bits_0 in T. discriminate.
  - apply Z.eqb_eq. apply Z.bits_inj'. intros n Hn.
    rewrite Z.land_spec, Z.bits_0, Z.pow2_bits_eqb by lia.
    destruct (Z.eqb_spec a n) as [->|]; [rewrite E; reflexivity | apply andb_false_r].
Qed.

Lemma lor_bit (m a b : Z) :
  0 <= a -> 0 <= b ->
  Z.testbit (Z.lor m (Z.shiftl 1 a)) b = (b =? a) || Z.testbit m b.
Proof.
  intros Ha Hb.
  rewrite Z.shiftl_1_l, Z.lor_spec, Z.pow2_bits_eqb, Z.eqb_sym by lia.
  apply orb_comm.
Qed.

Lemma fresh_scan_spec (l seen : list Z) :
  fresh_scan seen l = true <-> NoDup l /\ (forall a, In a l -> ~ In a seen).
Proof.
  revert seen. induction l as [|a l IH]; intros seen; simpl.
  - split; [intros _; split; [constructor | tauto] | reflexivity].
  - rewrite andb_true_iff, negb_true_iff, memZ_not_In, IH. split.
    + intros [H1 [H2 H3]]. split.
      * constructor; [|assumption]. intros Hin. apply (H3 a Hin). now left.
      * intros b [<-|Hb]; [assumption|]. intros Hs. apply (H3 b Hb). now right.
    + intros [H1 H2]. inversion H1; subst. repeat split.
      * apply H2. now left.
      * assumption.
      * intros b Hb [<-|Hs]; [contradiction|]. apply (H2 b); [now right | assumption].
Qed.

Lemma has_dup_loop_spec (n : nat) (c : Z) :
  forall i mask seen,
    (forall a, 0 <= a -> Z.testbit mask a = memZ a seen) ->
    has_dup_loop n c i mask =
    if fresh_scan seen (comb_actions_from n c i) then 0 else 1.
Proof.
  induction n as [|n IH]; intros i mask seen Hmask; simpl; [reflexivity|].
  pose proof (GET_ACTION_range c i) as Hr.
  destruct (GET_ACTION c i =? 0) eqn:E0; [reflexivity|].
  simpl. rewrite land_bit, negb_involutive, Hmask by lia.
  destruct (memZ (GET_ACTION c i) seen) eqn:Em; simpl; [reflexivity|].
  apply IH. intros a Ha. rewrite lor_bit by lia. simpl.
  rewrite Hmask by assumption.
  rewrite (Z.eqb_sym a). reflexivity.
Qed.

Lemma has_dup_spec (c : Z) :
  has_dup c = if nodupb (comb_actions c) then 0 else 1.
Proof.
  unfold has_dup, comb_actions.
  rewrite (has_dup_loop_spec _ c 0 0 []).
  2:{ intros a _. apply Z.bits_0. }
  generalize (comb_actions_from (Z.to_nat NB_ACTIONS) c 0). intros l.
  destruct (fresh_scan [] l) eqn:E1, (nodupb l) eqn:E2; try reflexivity; exfalso.
  - apply fresh_scan_spec in E1. destruct E1 as [E1 _].
    apply nodupb_NoDup in E1. congruence.
  - apply nodupb_NoDup in E2.
    assert (fresh_scan [] l = true) as E; [|congruence].
    apply fresh_scan_spec. split; [assumption | intros a _ []].
Qed.

Lemma has_dup_NoDup (c : Z) : has_dup c = 0 <-> NoDup (comb_actions c).
Proof.
  rewrite has_dup_spec, <- nodupb_NoDup.
  destruct (nodupb (comb_actions c)); split; congruence.
Qed.

(** ** [get_next_comb]: fuel and results *)

Lemma get_next_comb_S (fuel : nat) (comb : Z) :
  get_next_comb (S fuel) comb =
  match next_candidate comb with
  | ScanReturn v => Some v
  | ScanBreak ret =>
      if negb (has_dup ret =? 0) then get_next_comb fuel ret else Some ret
  end.
Proof. reflexivity. Qed.

Lemma get_next_comb_loop_return (n : nat) (comb : Z) :
  forall i need_inc ret v,
    get_next_comb_loop n comb i need_inc ret = ScanReturn v -> v = EOA.
Proof.
  induction n as [|n IH]; intros i need_inc r v; cbn [get_next_comb_loop].
  - congruence.
  - destruct ((GET_ACTION comb i =? 0) && negb need_inc); [discriminate|].
    destruct need_inc; [destruct (GET_ACTION comb i + 1 =? NB_ACTIONS)|];
      apply IH.
Qed.

Lemma get_next_comb_fuel_mono (fuel fuel' : nat) (comb r : Z) :
  (fuel <= fuel')%nat ->
  get_next_comb fuel comb = Some r -> get_next_comb fuel' comb = Some r.
Proof.
  revert fuel' comb. induction fuel as [|fuel IH]; intros fuel' comb Hle.
  - discriminate.
  - destruct fuel' as [|fuel']; [lia|]. rewrite !get_next_comb_S.
    destruct (next_candidate comb) as [v|c]; [trivial|].
    destruct (negb (has_dup c =? 0)); [|trivial].
    apply IH. lia.
Qed.

Lemma get_next_comb_no_dup (fuel : nat) (comb r : Z) :
  get_next_comb fuel comb = Some r -> has_dup r = 0.
Proof.
  revert comb. induction fuel as [|fuel IH]; intros comb; [discriminate|].
  rewrite get_next_comb_S.
  destruct (next_candidate comb) as [v|c] eqn:E.
  - apply get_next_comb_loop_return in E. subst v.
    intros [= <-]. reflexivity.
  - destruct (has_dup c =? 0) eqn:Ed; cbn [negb].
    + intros [= <-]. now apply Z.eqb_eq.
    + apply IH.
Qed.

Lemma emitted_combs_mono (steps steps' fuel fuel' : nat) (comb : Z) (l : list Z) :
  (steps <= steps')%nat -> (fuel <= fuel')%nat ->
  emitted_combs steps fuel comb = Some l ->
  emitted_combs steps' fuel' comb = Some l.
Proof.
  intros Hs Hf. revert steps' Hs comb l.
  induction steps as [|steps IH]; intros steps' Hs comb l;
    cbn [emitted_combs]; [discriminate|].
  destruct steps' as [|steps']; [lia|]. cbn [emitted_combs].
  destruct (get_next_comb fuel comb) as [c|] eqn:E; [|discriminate].
  rewrite (get_next_comb_fuel_mono _ _ _ _ Hf E).
  destruct (c =? EOA); [trivial|].
  destruct (emitted_combs steps fuel c) as [l'|] eqn:E'; [|discriminate].
  rewrite (IH steps' ltac:(lia) _ _ E'). trivial.
Qed.

Lemma enumeration_run : emitted_combs 326 256 0 = Some enumeration.
Proof. vm_compute. reflexivity. Qed.

(** ** The enumeration from the empty sequence *)

Lemma emitted_combs_iter (steps fuel : nat) :
  forall comb l,
    emitted_combs steps fuel comb = Some l ->
    (forall n, (n < length l)%nat ->
               comb_iter (S n) fuel comb = Some (nth n l EOA) /\ nth n l EOA <> EOA)
    /\ comb_iter (S (length l)) fuel comb = Some EOA.
Proof.
  induction steps as [|steps IH]; intros comb l; cbn [emitted_combs];
    [discriminate|].
  destruct (get_next_comb fuel comb) as [c|] eqn:E; [|discriminate].
  destruct (Z.eqb_spec c EOA) as [->|Hc].
  - intros [= <-]. split.
    + intros n Hn. inversion Hn.
    + cbn [comb_iter length]. rewrite E. reflexivity.
  - destruct (emitted_combs steps fuel c) as [l'|] eqn:E'; [|discriminate].
    intros [= <-]. destruct (IH _ _ E') as [IH1 IH2]. split.
    + intros [|n] Hn.
      * cbn [comb_iter nth]. rewrite E. split; [reflexivity | assumption].
      * cbn [length] in Hn. destruct (IH1 n ltac:(lia)) as [H1 H2].
        change (comb_iter (S (S n)) fuel comb) with
          (match get_next_comb fuel comb with
           | None => None | Some c => comb_iter (S n) fuel c end).
        rewrite E. split; assumption.
    + change (comb_iter (S (length (c :: l'))) fuel comb) with
          (match get_next_comb fuel comb with
           | None => None | Some c => comb_iter (S (length l')) fuel c end).
      rewrite E. assumption.
Qed.

Lemma comb_iter_no_dup (n fuel : nat) :
  forall comb c, comb_iter (S n) fuel comb = Some c -> has_dup c = 0.
Proof.
  induction n as [|n IH]; intros comb c.
  - cbn [comb_iter]. destruct (get_next_comb fuel comb) as [c'|] eqn:E;
      [|discriminate].
    intros [= <-]. exact (get_next_comb_no_dup _ _ _ E).
  - change (comb_iter (S (S n)) fuel comb) with
      (match get_next_comb fuel comb with
       | None => None | Some c => comb_iter (S n) fuel c end).
    destruct (get_next_comb fuel comb) as [c'|]; [apply IH | discriminate].
Qed.

Lemma enumeration_from_empty (steps fuel : nat) :
  (326 <= steps)%nat -> (256 <= fuel)%nat ->
  emitted_combs steps fuel 0 = Some enumeration.
Proof.
  intros Hs Hf. exact (emitted_combs_mono _ _ _ _ _ _ Hs Hf enumeration_run).
Qed.

Lemma enumeration_sequences_valid :
  forallb valid_sequenceb (map comb_actions enumeration) = true.
Proof. vm_compute. reflexivity. Qed.

Lemma enumeration_sequences_distinct :
  nodup_listsb (map comb_actions enumeration) = true.
Proof. vm_compute. reflexivity. Qed.

Lemma enumeration_canonical :
  forallb (fun c => comb_of_actions (comb_actions c) =? c) enumeration = true.
Proof. vm_compute. reflexivity. Qed.

Lemma enumeration_covers :
  forallb covered [1; 2; 3; 4; 5]%nat = true.
Proof. vm_compute. reflexivity. Qed.

Lemma valid_sequence_emitted (s : list Z) :
  valid_sequence s -> In s (map comb_actions enumeration).
Proof.
  intros Hv. pose proof Hv as [Hlen [_ Hall]].
  assert (In (length s) [1; 2; 3; 4; 5]%nat) as Hn.
  { change (Z.to_nat K) with 5%nat in Hlen. simpl. lia. }
  pose proof enumeration_covers as Hc.
  rewrite forallb_forall in Hc. specialize (Hc _ Hn).
  unfold covered in Hc. rewrite forallb_forall in Hc.
  specialize (Hc s). rewrite (proj2 (valid_sequenceb_spec s) Hv) in Hc.
  assert (In s (lists_of_length [1; 2; 3; 4; 5] (length s))) as Hin.
  { apply lists_of_length_complete. revert Hall. apply Forall_impl.
    intros a Ha. change K with 5 in Ha. simpl. lia. }
  apply Hc in Hin. apply existsb_exists in Hin.
  destruct Hin as [s' [Hs' Heq]]. apply list_eqb_eq in Heq. now subst.
Qed.

(** ** Termination of the recursion of [get_next_comb], on every argument *)

Lemma testbit_above (r k n : Z) :
  0 <= r < 2 ^ k -> 0 <= k <= n -> Z.testbit r n = false.
Proof.
  intros Hr Hk. rewrite <- (Z.mod_small r (2 ^ k)) by assumption.
  apply Z.mod_pow2_bits_high. assumption.
Qed.

Lemma pow16 (i : Z) : 0 <= i -> 2 ^ (i * BITS_PER_ACTION) = 16 ^ i.
Proof.
  intros Hi. unfold BITS_PER_ACTION.
  rewrite Z.mul_comm, Z.pow_mul_r by lia. reflexivity.
Qed.

Lemma lor_shiftl_add (r a i : Z) :
  0 <= i -> 0 <= r < 16 ^ i ->
  Z.lor r (Z.shiftl a (i * BITS_PER_ACTION)) = r + a * 16 ^ i.
Proof.
  intros Hi Hr. rewrite <- pow16 in * by assumption.
  assert (0 <= i * BITS_PER_ACTION) as Hk by (unfold BITS_PER_ACTION; lia).
  rewrite Z.shiftl_mul_pow2 by assumption.
  rewrite <- Z.add_lor_land.
  replace (Z.land r (a * 2 ^ (i * BITS_PER_ACTION))) with 0; [lia|].
  symmetry. apply Z.bits_inj'. intros n Hn.
  rewrite Z.land_spec, Z.bits_0.
  destruct (Z.ltb_spec n (i * BITS_PER_ACTION)).
  - rewrite Z.mul_pow2_bits_low by assumption. apply andb_false_r.
  - rewrite (testbit_above r (i * BITS_PER_ACTION)) by (try assumption; lia).
    reflexivity.
Qed.

Lemma lor_shiftl_carry (r d i : Z) :
  0 <= i -> 0 <= r < 16 ^ i ->
  Z.lor (r + 16 ^ i) (Z.shiftl d (i * BITS_PER_ACTION)) =
  r + Z.lor 1 d * 16 ^ i.
Proof.
  intros Hi Hr.
  replace (r + 16 ^ i) with (Z.lor r (Z.shiftl 1 (i * BITS_PER_ACTION))).
  - rewrite <- Z.lor_assoc, <- Z.shiftl_lor. now apply lor_shiftl_add.
  - rewrite lor_shiftl_add by assumption. lia.
Qed.

Lemma undigits_zeros (n : nat) : undigits (repeat 0 n) = 0.
Proof. induction n as [|n IH]; simpl repeat; cbn [undigits]; lia. Qed.

Lemma pow16_succ (i : Z) : 0 <= i -> 16 ^ (i + 1) = 16 * 16 ^ i.
Proof. intros Hi. rewrite Z.add_1_r, Z.pow_succ_r by assumption. reflexivity. Qed.

Lemma scan_copy (n : nat) (c : Z) :
  forall i r,
    0 <= i -> 0 <= r < 16 ^ i ->
    get_next_comb_loop n c i false r =
    match copy_slots (slots n c i) with
    | None => ScanReturn EOA
    | Some ds => ScanBreak (r + 16 ^ i * undigits ds)
    end.
Proof.
  induction n as [|n IH]; intros i r Hi Hr;
    cbn [get_next_comb_loop slots copy_slots]; [reflexivity|].
  pose proof (GET_ACTION_range c i) as Hd.
  destruct (GET_ACTION c i =? 0) eqn:E0; cbn [andb negb].
  - rewrite undigits_zeros. f_equal. lia.
  - rewrite lor_shiftl_add by assumption.
    rewrite IH by (rewrite ?pow16_succ by assumption; nia).
    destruct (copy_slots (slots n c (i + 1))) as [ds|]; cbn [option_map];
      [|reflexivity].
    cbn [undigits]. rewrite pow16_succ by assumption. f_equal. ring.
Qed.

Lemma scan_copy_carry (n : nat) (c i r : Z) :
  0 <= i -> 0 <= r < 16 ^ i ->
  get_next_comb_loop n c i false (r + 16 ^ i) =
  match copy_slots_carry (slots n c i) with
  | None => ScanReturn EOA
  | Some ds => ScanBreak (r + 16 ^ i * undigits ds)
  end.
Proof.
  intros Hi Hr. destruct n as [|n];
    cbn [get_next_comb_loop slots copy_slots_carry]; [reflexivity|].
  pose proof (GET_ACTION_range c i) as Hd.
  destruct (GET_ACTION c i =? 0) eqn:E0; cbn [andb negb].
  - cbn [undigits]. rewrite undigits_zeros. f_equal. lia.
  - rewrite lor_shiftl_carry by assumption.
    assert (0 <= Z.lor 1 (GET_ACTION c i) < 16) as Hl.
    { split; [apply Z.lor_nonneg; lia|].
      assert (Z.lor 1 (GET_ACTION c i) = 0 \/ 0 < Z.lor 1 (GET_ACTION c i)) as [->|Hp];
        [assert (0 <= Z.lor 1 (GET_ACTION c i)) by (apply Z.lor_nonneg; lia); lia
        | lia |].
      apply (Z.log2_lt_pow2 _ 4 Hp). rewrite Z.log2_lor by lia.
      apply Z.max_lub_lt; [reflexivity|].
      destruct (Z.eq_dec (GET_ACTION c i) 0) as [->|]; [reflexivity|].
      apply Z.log2_lt_pow2; lia. }
    rewrite scan_copy by (rewrite ?pow16_succ by assumption; nia).
    destruct (copy_slots (slots n c (i + 1))) as [ds|]; cbn [option_map];
      [|reflexivity].
    cbn [undigits]. rewrite pow16_succ by assumption. f_equal. ring.
Qed.

Lemma scan_inc (n : nat) (c : Z) :
  forall i r,
    0 <= i -> 0 <= r < 16 ^ i ->
    get_next_comb_loop n c i true r =
    match inc_slots (slots n c i) with
    | None => ScanReturn EOA
    | Some ds => ScanBreak (r + 16 ^ i * undigits ds)
    end.
Proof.
  induction n as [|n IH]; intros i r Hi Hr;
    cbn [get_next_comb_loop slots inc_slots]; [reflexivity|].
  pose proof (GET_ACTION_range c i) as Hd.
  rewrite andb_false_r.
  destruct (GET_ACTION c i + 1 =? NB_ACTIONS) eqn:E6.
  - rewrite lor_shiftl_add by assumption.
    rewrite IH by (rewrite ?pow16_succ by assumption; nia).
    destruct (inc_slots (slots n c (i + 1))) as [ds|]; cbn [option_map];
      [|reflexivity].
    cbn [undigits]. rewrite pow16_succ by assumption. f_equal. ring.
  - rewrite lor_shiftl_add by assumption.
    destruct (GET_ACTION c i + 1 =? 16) eqn:E16.
    + apply Z.eqb_eq in E16. rewrite E16.
      replace (r + 16 * 16 ^ i) with (r + 16 ^ (i + 1))
        by (rewrite pow16_succ by assumption; reflexivity).
      rewrite scan_copy_carry by (rewrite ?pow16_succ by assumption; nia).
      destruct (copy_slots_carry (slots n c (i + 1))) as [ds|];
        cbn [option_map]; [|reflexivity].
      cbn [undigits]. rewrite pow16_succ by assumption. f_equal. ring.
    + apply Z.eqb_neq in E16.
      rewrite scan_copy by (rewrite ?pow16_succ by assumption; nia).
      destruct (copy_slots (slots n c (i + 1))) as [ds|]; cbn [option_map];
        [|reflexivity].
      cbn [undigits]. rewrite pow16_succ by assumption. f_equal. ring.
Qed.

Lemma next_candidate_slots (c : Z) :
  next_candidate c =
  match inc_slots (slots (Z.to_nat NB_ACTIONS) c 0) with
  | None => ScanReturn EOA
  | Some ds => ScanBreak (undigits ds)
  end.
Proof.
  unfold next_candidate. rewrite scan_inc by (simpl; lia).
  destruct (inc_slots _); [|reflexivity]. f_equal. simpl (16 ^ 0). lia.
Qed.

Lemma GET_ACTION_cons_0 (d x : Z) : slot_ok d -> GET_ACTION (d + 16 * x) 0 = d.
Proof.
  intros Hd. rewrite GET_ACTION_mod by lia.
  rewrite Z.pow_0_r, Z.div_1_r, Z.mul_comm, Z.mod_add by lia.
  now apply Z.mod_small.
Qed.

Lemma GET_ACTION_cons_S (d x i : Z) :
  slot_ok d -> 0 <= i -> GET_ACTION (d + 16 * x) (i + 1) = GET_ACTION x i.
Proof.
  intros Hd Hi. rewrite !GET_ACTION_mod by lia.
  rewrite pow16_succ by assumption.
  rewrite <- Z.div_div by lia.
  rewrite (Z.mul_comm 16 x), Z.div_add, (Z.div_small d 16) by (try assumption; lia).
  reflexivity.
Qed.

Lemma slots_cons (n : nat) (d x : Z) :
  slot_ok d -> forall i, 0 <= i -> slots n (d + 16 * x) (i + 1) = slots n x i.
Proof.
  intros Hd. induction n as [|n IH]; intros i Hi; cbn [slots]; [reflexivity|].
  rewrite GET_ACTION_cons_S, IH by (try assumption; lia). reflexivity.
Qed.

Lemma slots_undigits (ds : list Z) :
  Forall slot_ok ds -> slots (length ds) (undigits ds) 0 = ds.
Proof.
  induction 1 as [|d ds Hd _ IH]; cbn [length slots undigits]; [reflexivity|].
  rewrite GET_ACTION_cons_0 by assumption.
  rewrite (slots_cons _ _ _ Hd 0) by lia. now rewrite IH.
Qed.

Lemma slots_ok (n : nat) (c : Z) : forall i, Forall slot_ok (slots n c i).
Proof.
  induction n as [|n IH]; intros i; cbn [slots]; constructor.
  - apply GET_ACTION_range.
  - apply IH.
Qed.

Lemma slots_length (n : nat) (c : Z) : forall i, length (slots n c i) = n.
Proof.
  induction n as [|n IH]; intros i; cbn [slots length]; [|rewrite IH];
    reflexivity.
Qed.

Lemma zeros_ok (n : nat) : Forall slot_ok (repeat 0 n).
Proof.
  induction n as [|n IH]; simpl; constructor; [unfold slot_ok; lia | assumption].
Qed.

Lemma stray_zeros (n : nat) : stray (repeat 0 n) = 0.
Proof. induction n as [|n IH]; simpl repeat; cbn [stray]; [|rewrite IH]; reflexivity. Qed.

Lemma stray_nonneg (ds : list Z) : 0 <= stray ds.
Proof.
  induction ds as [|d ds IH]; cbn [stray]; [lia|].
  destruct (NB_ACTIONS <=? d); lia.
Qed.

Lemma prefix_value_bound (ds : list Z) :
  Forall slot_ok ds -> 0 <= prefix_value ds < 16 ^ Z.of_nat (length ds).
Proof.
  induction 1 as [|d ds Hd _ IH]; cbn [prefix_value length].
  - simpl. lia.
  - rewrite Nat2Z.inj_succ, Z.pow_succ_r by lia. unfold slot_ok in Hd.
    destruct (d =? 0); lia.
Qed.

Lemma lor_1_slot (d : Z) :
  slot_ok d ->
  slot_ok (Z.lor 1 d) /\ (NB_ACTIONS <=? Z.lor 1 d) = (NB_ACTIONS <=? d).
Proof.
  intros Hd.
  assert (In d [0; 1; 2; 3; 4; 5; 6; 7; 8; 9; 10; 11; 12; 13; 14; 15]) as Hin
    by (unfold slot_ok in Hd; simpl; lia).
  unfold slot_ok.
  repeat (destruct Hin as [<-|Hin]; [vm_compute; intuition congruence|]).
  destruct Hin.
Qed.

Lemma copy_slots_spec (ds : list Z) :
  Forall slot_ok ds ->
  forall ds', copy_slots ds = Some ds' ->
    Forall slot_ok ds' /\ length ds' = length ds
    /\ prefix_value ds' = prefix_value ds /\ stray ds' <= stray ds.
Proof.
  induction 1 as [|d ds Hd Hds IH]; intros ds'; cbn [copy_slots];
    [discriminate|].
  destruct (d =? 0) eqn:E0.
  - intros [= <-]. repeat split.
    + apply (zeros_ok (S (length ds))).
    + apply (repeat_length 0 (S (length ds))).
    + cbn [length repeat prefix_value]. rewrite E0. reflexivity.
    + change (0 :: repeat 0 (length ds)) with (repeat 0 (S (length ds))).
      rewrite stray_zeros. apply stray_nonneg.
  - destruct (copy_slots ds) as [es|]; [|discriminate].
    intros [= <-]. destruct (IH es eq_refl) as [H1 [H2 [H3 H4]]].
    repeat split.
    + now constructor.
    + cbn [length]. now rewrite H2.
    + cbn [prefix_value]. now rewrite H3.
    + cbn [stray]. lia.
Qed.

Lemma copy_slots_carry_spec (ds : list Z) :
  Forall slot_ok ds ->
  forall ds', copy_slots_carry ds = Some ds' ->
    Forall slot_ok ds' /\ length ds' = length ds /\ stray ds' <= stray ds.
Proof.
  intros Hall ds'. destruct Hall as [|d ds Hd Hds]; unfold copy_slots_carry;
    [discriminate|].
  destruct (d =? 0) eqn:E0.
  - intros [= <-]. repeat split.
    + constructor; [unfold slot_ok; lia | apply zeros_ok].
    + cbn [length]. now rewrite repeat_length.
    + cbn [stray]. rewrite stray_zeros.
      pose proof (stray_nonneg ds). simpl. destruct (NB_ACTIONS <=? d); lia.
  - destruct (copy_slots ds) as [es|] eqn:E; [|discriminate].
    cbn [option_map]. intros HH.
    assert (Z.lor 1 d :: es = ds') as <- by congruence. clear HH.
    destruct (copy_slots_spec ds Hds es E) as [H1 [H2 [_ H4]]].
    destruct (lor_1_slot d Hd) as [Hl1 Hl2].
    repeat split.
    + now constructor.
    + cbn [length]. now rewrite H2.
    + cbn [stray]. rewrite Hl2. lia.
Qed.

Ltac case_cmp :=
  unfold NB_ACTIONS in *;
  repeat match goal with
         | |- context [Z.leb ?a ?b] => destruct (Z.leb_spec a b)
         | |- context [Z.eqb ?a ?b] => destruct (Z.eqb_spec a b)
         end;
  lia.

Lemma inc_slots_spec (ds : list Z) :
  Forall slot_ok ds ->
  forall ds', inc_slots ds = Some ds' ->
    Forall slot_ok ds' /\ length ds' = length ds
    /\ (stray ds' < stray ds
        \/ (stray ds' <= stray ds /\ prefix_value ds < prefix_value ds')).
Proof.
  induction 1 as [|d ds Hd Hds IH]; intros ds'; cbn [inc_slots];
    [discriminate|].
  pose proof Hd as Hd'. unfold slot_ok in Hd'.
  destruct (Z.eqb_spec (d + 1) NB_ACTIONS) as [E6|E6].
  - destruct (inc_slots ds) as [es|]; [|discriminate].
    intros [= <-]. destruct (IH es eq_refl) as [H1 [H2 H3]].
    assert (d = 5) as -> by (unfold NB_ACTIONS in E6; lia).
    repeat split.
    + constructor; [unfold slot_ok; lia | assumption].
    + cbn [length]. now rewrite H2.
    + cbn [stray prefix_value]. case_cmp.
  - destruct (Z.eqb_spec (d + 1) 16) as [E16|E16].
    + destruct (copy_slots_carry ds) as [es|] eqn:E; [|discriminate].
      intros [= <-].
      destruct (copy_slots_carry_spec ds Hds es E) as [H1 [H2 H3]].
      assert (d = 15) as -> by lia.
      repeat split.
      * constructor; [unfold slot_ok; lia | assumption].
      * cbn [length]. now rewrite H2.
      * left. cbn [stray]. case_cmp.
    + destruct (copy_slots ds) as [es|] eqn:E; [|discriminate].
      intros [= <-].
      destruct (copy_slots_spec ds Hds es E) as [H1 [H2 [H3 H4]]].
      pose proof (prefix_value_bound ds Hds) as Hb.
      repeat split.
      * constructor; [unfold slot_ok; lia | assumption].
      * cbn [length]. now rewrite H2.
      * right. cbn [stray prefix_value]. rewrite H3. case_cmp.
Qed.

Lemma measure_decreases (c c' : Z) :
  next_candidate c = ScanBreak c' -> 0 <= measure c' < measure c.
Proof.
  rewrite next_candidate_slots.
  destruct (inc_slots _) as [ds|] eqn:E; [|discriminate].
  intros [= <-].
  destruct (inc_slots_spec _ (slots_ok _ c 0) ds E) as [H1 [H2 H3]].
  rewrite slots_length in H2.
  assert (slots (Z.to_nat NB_ACTIONS) (undigits ds) 0 = ds) as Hs
    by (rewrite <- H2; now apply slots_undigits).
  unfold measure. rewrite Hs.
  pose proof (prefix_value_bound ds H1) as B1.
  pose proof (prefix_value_bound _ (slots_ok (Z.to_nat NB_ACTIONS) c 0)) as B2.
  rewrite H2 in B1. rewrite slots_length in B2.
  change (Z.of_nat (Z.to_nat NB_ACTIONS)) with NB_ACTIONS in *.
  pose proof (stray_nonneg ds).
  set (M := 16 ^ NB_ACTIONS) in *.
  assert (0 < M) by reflexivity.
  destruct H3 as [H3|[H3 H4]]; nia.
Qed.

Lemma undigits_bound (ds : list Z) :
  Forall slot_ok ds -> 0 <= undigits ds < 16 ^ Z.of_nat (length ds).
Proof.
  induction 1 as [|d ds Hd _ IH]; cbn [undigits length].
  - simpl. lia.
  - rewrite Nat2Z.inj_succ, Z.pow_succ_r by lia. unfold slot_ok in Hd. lia.
Qed.

Lemma next_candidate_range (c r : Z) :
  next_candidate c = ScanBreak r -> 0 <= r < 2 ^ 24.
Proof.
  rewrite next_candidate_slots.
  destruct (inc_slots _) as [ds|] eqn:E; [|discriminate].
  intros [= <-].
  destruct (inc_slots_spec _ (slots_ok _ c 0) ds E) as [H1 [H2 _]].
  rewrite slots_length in H2.
  pose proof (undigits_bound ds H1) as B. rewrite H2 in B. exact B.
Qed.

Lemma get_next_comb_range (fuel : nat) :
  forall comb r, get_next_comb fuel comb = Some r -> 0 <= r < 2 ^ 24.
Proof.
  induction fuel as [|fuel IH]; intros comb r; [discriminate|].
  rewrite get_next_comb_S.
  destruct (next_candidate comb) as [v|c] eqn:E.
  - apply get_next_comb_loop_return in E. subst v.
    intros [= <-]. unfold EOA. lia.
  - destruct (negb (has_dup c =? 0)); [apply IH|].
    intros [= <-]. exact (next_candidate_range _ _ E).
Qed.

Lemma get_next_comb_terminates_within (m : nat) :
  forall comb,
    measure comb < Z.of_nat m ->
    exists r, get_next_comb m comb = Some r.
Proof.
  induction m as [|m IH]; intros comb Hm.
  - exfalso. unfold measure in Hm.
    pose proof (prefix_value_bound _ (slots_ok (Z.to_nat NB_ACTIONS) comb 0)) as B.
    rewrite slots_length in B.
    change (Z.of_nat (Z.to_nat NB_ACTIONS)) with NB_ACTIONS in B.
    pose proof (stray_nonneg (slots (Z.to_nat NB_ACTIONS) comb 0)).
    simpl Z.of_nat in Hm. nia.
  - rewrite get_next_comb_S.
    destruct (next_candidate comb) as [v|c] eqn:E; [eauto|].
    destruct (negb (has_dup c =? 0)); [|eauto].
    apply IH. apply measure_decreases in E. lia.
Qed.

Lemma get_next_comb_total (comb : Z) :
  exists fuel r, forall fuel', (fuel <= fuel')%nat ->
                               get_next_comb fuel' comb = Some r.
Proof.
  destruct (get_next_comb_terminates_within (S (Z.to_nat (measure comb))) comb)
    as [r Hr].
  - assert (0 <= measure comb); [|lia].
    unfold measure.
    pose proof (prefix_value_bound _ (slots_ok (Z.to_nat NB_ACTIONS) comb 0)) as B.
    rewrite slots_length in B.
    change (Z.of_nat (Z.to_nat NB_ACTIONS)) with NB_ACTIONS in B.
    pose proof (stray_nonneg (slots (Z.to_nat NB_ACTIONS) comb 0)). nia.
  - exists (S (Z.to_nat (measure comb))), r. intros fuel' Hle.
    exact (get_next_comb_fuel_mono _ _ _ _ Hle Hr).
Qed.

(** ** Completeness, order and termination of the enumeration *)

Lemma enumeration_length : length enumeration = 325%nat.
Proof. reflexivity. Qed.

(** C1.  Enumeration completeness for the [K = 5] actions of the program.
    Calling [get_next_comb] again and again from the empty sequence
    ([comb = 0]) returns the combs of [enumeration] and then [EOA]; these
    are [sum_{n=1..K} K!/(K-n)! = 325] combs; no sequence of actions is
    emitted twice; the emitted sequences are exactly the duplicate-free
    sequences of 1 to [K] actions among [1..K]; and each emitted comb
    holds nothing but its sequence. *)
Theorem enumeration_complete :
  (forall steps fuel, (326 <= steps)%nat -> (256 <= fuel)%nat ->
                      emitted_combs steps fuel 0 = Some enumeration)
  /\ length enumeration = nb_sequences (Z.to_nat K)
  /\ nb_sequences (Z.to_nat K) = 325%nat
  /\ NoDup (map comb_actions enumeration)
  /\ (forall s, valid_sequence s <-> In s (map comb_actions enumeration))
  /\ (forall c, In c enumeration -> comb_of_actions (comb_actions c) = c).
Proof.
  split; [exact enumeration_from_empty|].
  split; [reflexivity|]. split; [reflexivity|].
  split; [exact (nodup_listsb_NoDup _ enumeration_sequences_distinct)|].
  split.
  - intros s. split; [apply valid_sequence_emitted|].
    intros Hin. apply valid_sequenceb_spec.
    pose proof enumeration_sequences_valid as Hv.
    rewrite forallb_forall in Hv. now apply Hv.
  - intros c Hin. pose proof enumeration_canonical as Hc.
    rewrite forallb_forall in Hc. apply Z.eqb_eq. now apply Hc.
Qed.

(** C2.  No duplicates.  Whatever the number of calls and the fuel, a
    value returned by iterating [get_next_comb] from the empty sequence
    has [has_dup] equal to 0 and no action in two of its slots. *)
Theorem emitted_no_duplicate (n fuel : nat) (c : Z) :
  comb_iter (S n) fuel 0 = Some c ->
  c <> EOA ->
  has_dup c = 0 /\ NoDup (comb_actions c).
Proof.
  intros H _. apply comb_iter_no_dup in H. split; [assumption|].
  now apply has_dup_NoDup.
Qed.

Lemma emitted_no_duplicate_witness :
  comb_iter 6 2 0 = Some 0x12 /\ has_dup 0x12 = 0 /\ NoDup (comb_actions 0x12).
Proof.
  split; [reflexivity|].
  apply (emitted_no_duplicate 5 2 0x12); [reflexivity | discriminate].
Defined.

(** C6, as the specification has it, fails: the successor of the
    one-action sequence [prefetch] is the one-action sequence
    [fetchinfo], not an extension of [prefetch]. *)
Lemma successor_of_prefetch :
  get_next_comb 1 (comb_of_actions [ACTION_PREFETCH])
  = Some (comb_of_actions [ACTION_FETCH_INFO])
  /\ comb_actions (comb_of_actions [ACTION_FETCH_INFO]) = [ACTION_FETCH_INFO]
  /\ length (comb_actions (comb_of_actions [ACTION_FETCH_INFO])) = 1%nat.
Proof. repeat split. Qed.

Lemma increasing_sorted (l : list Z) :
  increasing l = true -> StronglySorted Z.lt l.
Proof.
  intros H. apply Sorted_StronglySorted; [exact Z.lt_trans|].
  induction l as [|a l IH]; [constructor|].
  destruct l as [|b l]; [repeat constructor|].
  cbn [increasing] in H. apply andb_true_iff in H. destruct H as [H1 H2].
  constructor; [exact (IH H2) | constructor; now apply Z.ltb_lt].
Qed.

Lemma nondecreasing_sorted (l : list nat) :
  nondecreasing_nat l = true -> StronglySorted le l.
Proof.
  intros H. apply Sorted_StronglySorted; [exact Nat.le_trans|].
  induction l as [|a l IH]; [constructor|].
  destruct l as [|b l]; [repeat constructor|].
  cbn [nondecreasing_nat] in H. apply andb_true_iff in H. destruct H as [H1 H2].
  constructor; [exact (IH H2) | constructor; now apply Nat.leb_le].
Qed.

(** C6, amended.  [get_next_comb] counts: on every comb the candidate is
    the comb with slot 0 advanced, the carry going to the next slots
    ([inc_slots]), and a slot is added only when all slots wrap around.
    Over the enumeration from the empty sequence the combs grow as
    integers and the lengths of the sequences never decrease (every
    sequence of [n] actions comes before every sequence of [n + 1]
    actions); the successor of [prefetch] is [fetchinfo], and the
    successor of the last one-action sequence, [end], is the first
    two-action sequence. *)
Theorem enumeration_length_first :
  (forall comb,
      next_candidate comb =
      match inc_slots (slots (Z.to_nat NB_ACTIONS) comb 0) with
      | None => ScanReturn EOA
      | Some ds => ScanBreak (undigits ds)
      end)
  /\ StronglySorted Z.lt enumeration
  /\ StronglySorted le (map (fun c => length (comb_actions c)) enumeration)
  /\ get_next_comb 1 (comb_of_actions [ACTION_PREFETCH])
     = Some (comb_of_actions [ACTION_FETCH_INFO])
  /\ get_next_comb 2 (comb_of_actions [ACTION_END])
     = Some (comb_of_actions [ACTION_FETCH_INFO; ACTION_PREFETCH]).
Proof.
  split; [exact next_candidate_slots|].
  split; [apply increasing_sorted; vm_compute; reflexivity|].
  split; [apply nondecreasing_sorted; vm_compute; reflexivity|].
  split; reflexivity.
Qed.

(** C9.  Termination.  From the empty sequence, the first 325 calls of
    [get_next_comb] return a comb other than [EOA] and the 326th returns
    [EOA]; and on every argument the recursion of [get_next_comb] on
    candidates with a duplicate stops: some depth is enough for a result. *)
Theorem enumeration_terminates :
  (forall fuel, (256 <= fuel)%nat ->
     (forall n, (1 <= n <= 325)%nat ->
                exists c, comb_iter n fuel 0 = Some c /\ c <> EOA)
     /\ comb_iter 326 fuel 0 = Some EOA)
  /\ (forall comb, exists fuel r,
        forall fuel', (fuel <= fuel')%nat -> get_next_comb fuel' comb = Some r).
Proof.
  split; [|exact get_next_comb_total].
  intros fuel Hf.
  pose proof (enumeration_from_empty 326 fuel (Nat.le_refl _) Hf) as He.
  apply emitted_combs_iter in He. rewrite enumeration_length in He.
  destruct He as [H1 H2]. split; [|exact H2].
  intros [|n] Hn; [lia|]. exists (nth n enumeration EOA). apply H1. lia.
Qed.

(** ** The frame oracle *)

Lemma check_frame_unfold (f : sxplayer_frame) (t : float) (flags : Z) :
  check_frame f t flags =
  if negb (flag_set flags FLAG_AUDIO) && double_gt (diff_color f t flags) tolerance
  then -1
  else if double_gt (diff_ts f t flags) tolerance then -1 else 0.
Proof.
  unfold check_frame, diff_color, diff_ts, playback_time, trim_bound, skip_of.
  destruct (flag_set flags FLAG_TRIM_DURATION), (flag_set flags FLAG_AUDIO);
    reflexivity.
Qed.

Example check_frame_accepts_close :
  check_frame {| data0 := pixel_of_frame_id 752; ts := 30.099%float |}
    30.1%float 0 = 0.
Proof. reflexivity. Qed.

Example check_frame_rejects_far :
  check_frame {| data0 := pixel_of_frame_id 752; ts := 30.2%float |}
    30.1%float 0 = -1.
Proof. reflexivity. Qed.

(** Comparing the other way round gives the opposite result. *)
Lemma SFcompare_antisym (a b : spec_float) :
  SFcompare b a = option_map CompOpp (SFcompare a b).
Proof.
  destruct a as [sa|sa| |sa ma ea], b as [sb|sb| |sb mb eb]; cbn;
    try reflexivity;
    try (destruct sa; reflexivity);
    try (destruct sb; reflexivity);
    try (destruct sa, sb; reflexivity).
  destruct sa, sb; try reflexivity; f_equal;
    rewrite (Z.compare_antisym ea eb);
    destruct (ea ?= eb) eqn:E; cbn; try reflexivity.
  - f_equal. symmetry. exact (Pos.compare_cont_antisym ma mb Eq).
  - symmetry. exact (Pos.compare_cont_antisym ma mb Eq).
Qed.

(** On numbers, [x > y] is the negation of [x <= y]. *)
Lemma double_gt_not_le (x y : float) :
  is_number x = true -> is_number y = true ->
  double_gt x y = negb (PrimFloat.leb x y).
Proof.
  unfold is_number, double_gt.
  rewrite !eqb_spec, ltb_spec, leb_spec.
  unfold SFeqb, SFltb, SFleb.
  rewrite (SFcompare_antisym (Prim2SF x) (Prim2SF y)).
  destruct (Prim2SF x) as [sa|sa| |sa ma ea], (Prim2SF y) as [sb|sb| |sb mb eb];
    try discriminate; intros _ _;
    match goal with
    | |- context [SFcompare ?a ?b] => destruct (SFcompare a b) as [[]|] eqn:E
    end; try reflexivity; discriminate.
Qed.

Lemma check_frame_verdict (f : sxplayer_frame) (t : float) (flags : Z) :
  check_frame f t flags =
  verdict (av_clipd t 0%float (trim_bound flags)) f (skip_of flags)
    (flag_set flags FLAG_AUDIO).
Proof.
  rewrite check_frame_unfold. unfold verdict, within_tolerance.
  rewrite !negb_involutive. reflexivity.
Qed.

(** C3, as the specification has it, fails on a timestamp that is not a
    number: every comparison with NaN is false, so the video frame below,
    whose colour is the one expected at 30.1 s and whose timestamp is NaN,
    is accepted although its difference to the playback time is not at
    most [1/25]. *)
Lemma check_frame_accepts_nan :
  check_frame {| data0 := pixel_of_frame_id 752; ts := PrimFloat.nan |}
    30.1%float 0 = 0
  /\ PrimFloat.leb
       (diff_ts {| data0 := pixel_of_frame_id 752; ts := PrimFloat.nan |}
          30.1%float 0)
       tolerance = false.
Proof. split; reflexivity. Qed.

(** C3, amended.  [check_frame] returns 0 or -1.  It returns -1 exactly
    when a difference compares greater than [1/25]: the one to the
    colour-derived time, on a video frame, or the one to the timestamp.
    When the differences are numbers, this is to say that it returns 0
    exactly when each is at most [1/25].  With no skew and no trim, at
    30.1 s, a timestamp of 30.099 is accepted and one of 30.2 rejected. *)
Theorem check_frame_tolerance (f : sxplayer_frame) (t : float) (flags : Z) :
  (check_frame f t flags = 0 \/ check_frame f t flags = -1)
  /\ (check_frame f t flags = -1 <->
      (flag_set flags FLAG_AUDIO = false
       /\ double_gt (diff_color f t flags) tolerance = true)
      \/ double_gt (diff_ts f t flags) tolerance = true)
  /\ (is_number (diff_ts f t flags) = true ->
      (flag_set flags FLAG_AUDIO = false ->
       is_number (diff_color f t flags) = true) ->
      (check_frame f t flags = 0 <->
       PrimFloat.leb (diff_ts f t flags) tolerance = true
       /\ (flag_set flags FLAG_AUDIO = false ->
           PrimFloat.leb (diff_color f t flags) tolerance = true)))
  /\ check_frame {| data0 := pixel_of_frame_id 752; ts := 30.099%float |}
       30.1%float 0 = 0
  /\ check_frame {| data0 := pixel_of_frame_id 752; ts := 30.2%float |}
       30.1%float 0 = -1.
Proof.
  rewrite check_frame_unfold.
  split; [|split; [|split; [|split; reflexivity]]].
  - destruct (negb _ && _); [now right|].
    destruct (double_gt (diff_ts f t flags) tolerance); [now right | now left].
  - destruct (flag_set flags FLAG_AUDIO); cbn [negb andb];
      destruct (double_gt (diff_color f t flags) tolerance);
      destruct (double_gt (diff_ts f t flags) tolerance);
      intuition congruence.
  - intros Hts Hcolor.
    rewrite (double_gt_not_le _ tolerance Hts eq_refl).
    destruct (flag_set flags FLAG_AUDIO); cbn [negb andb].
    + destruct (PrimFloat.leb (diff_ts f t flags) tolerance); cbn [negb];
        intuition congruence.
    + rewrite (double_gt_not_le _ tolerance (Hcolor eq_refl) eq_refl).
      destruct (PrimFloat.leb (diff_color f t flags) tolerance);
        destruct (PrimFloat.leb (diff_ts f t flags) tolerance); cbn [negb];
        intuition congruence.
Qed.

(** C4.  The time a frame is checked against is [av_clipd] of the
    requested time between 0 and the trim duration, 53.43 with the trim
    flag and [DBL_MAX] without.  With the skew and trim flags, a request at
    60.0 is checked against 53.43, to which the timestamp less 7.12 is
    compared: a frame is judged at 60.0 as it is at 53.43, a timestamp of
    53.43 + 7.12 is accepted and one of 60.0 + 7.12 is rejected. *)
Theorem check_frame_clamp :
  (forall f t flags,
      check_frame f t flags =
      verdict
        (av_clipd t 0%float
           (if flag_set flags FLAG_TRIM_DURATION
            then TESTVAL_TRIM_DURATION else DBL_MAX))
        f
        (if flag_set flags FLAG_SKIP then TESTVAL_SKIP else 0%float)
        (flag_set flags FLAG_AUDIO))
  /\ av_clipd 60.0%float 0%float TESTVAL_TRIM_DURATION = 53.43%float
  /\ (forall f,
         check_frame f 60.0%float (Z.lor FLAG_SKIP FLAG_TRIM_DURATION) =
         verdict 53.43%float f 7.12%float false)
  /\ (forall f,
         check_frame f 60.0%float (Z.lor FLAG_SKIP FLAG_TRIM_DURATION) =
         check_frame f 53.43%float (Z.lor FLAG_SKIP FLAG_TRIM_DURATION))
  /\ check_frame
       {| data0 := pixel_of_frame_id 1514; ts := (53.43 + 7.12)%float |}
       60.0%float (Z.lor FLAG_SKIP FLAG_TRIM_DURATION) = 0
  /\ check_frame
       {| data0 := pixel_of_frame_id 1514; ts := (60.0 + 7.12)%float |}
       60.0%float (Z.lor FLAG_SKIP FLAG_TRIM_DURATION) = -1.
Proof.
  split; [exact check_frame_verdict|].
  split; [reflexivity|].
  split; [intros f; rewrite check_frame_verdict; reflexivity|].
  split; [intros f; rewrite !check_frame_verdict; reflexivity|].
  split; reflexivity.
Qed.

(** *** The frame id in the pixel *)

Lemma nibble_range (x : Z) : 0 <= Z.land x 0xf < 16.
Proof.
  change 0xf with (Z.ones 4). rewrite Z.land_ones by lia.
  apply Z.mod_pos_bound. reflexivity.
Qed.

Lemma frame_id_of_pixel_sum (c : Z) :
  frame_id_of_pixel c =
  256 * Z.land (Z.shiftr c 20) 0xf + 16 * Z.land (Z.shiftr c 12) 0xf
  + Z.land (Z.shiftr c 4) 0xf.
Proof.
  unfold frame_id_of_pixel, N.
  change (4 + 16) with 20. change (4 + 8) with 12. change (4 + 0) with 4.
  change (4 * 2) with 8.
  pose proof (nibble_range (Z.shiftr c 20)) as Hr.
  pose proof (nibble_range (Z.shiftr c 12)) as Hg.
  pose proof (nibble_range (Z.shiftr c 4)) as Hb.
  set (r := Z.land (Z.shiftr c 20) 0xf) in *.
  set (g := Z.land (Z.shiftr c 12) 0xf) in *.
  set (b := Z.land (Z.shiftr c 4) 0xf) in *.
  rewrite (Z.lor_comm (Z.shiftl r 8)), (Z.lor_comm _ b), Z.lor_assoc.
  change (Z.shiftl g 4) with (Z.shiftl g (1 * BITS_PER_ACTION)).
  change (Z.shiftl r 8) with (Z.shiftl r (2 * BITS_PER_ACTION)).
  rewrite (lor_shiftl_add b g 1) by (simpl; lia).
  rewrite lor_shiftl_add by (simpl; lia).
  simpl (16 ^ _). lia.
Qed.

Lemma frame_id_of_pixel_reserved (c x : Z) :
  0 <= x < 16 -> frame_id_of_pixel (Z.lxor c x) = frame_id_of_pixel c.
Proof.
  intros Hx. unfold frame_id_of_pixel, N.
  change (4 + 16) with 20. change (4 + 8) with 12. change (4 + 0) with 4.
  assert (forall k, 4 <= k -> Z.shiftr (Z.lxor c x) k = Z.shiftr c k) as H.
  { intros k Hk. rewrite Z.shiftr_lxor.
    replace (Z.shiftr x k) with 0; [apply Z.lxor_0_r|].
    symmetry. apply Z.shiftr_eq_0; [lia|].
    destruct (Z.eq_dec x 0) as [->|]; [simpl; lia|].
    assert (Z.log2 x < 4); [apply Z.log2_lt_pow2; simpl; lia | lia]. }
  rewrite !H by lia. reflexivity.
Qed.

Lemma frame_id_roundtrip_all :
  forallb frame_id_roundtrips (seq 0 4096) = true.
Proof. vm_compute. reflexivity. Qed.

Lemma frame_id_of_pixel_of_frame_id (frame_id : Z) :
  0 <= frame_id < 4096 ->
  frame_id_of_pixel (pixel_of_frame_id frame_id) = frame_id.
Proof.
  intros H. pose proof frame_id_roundtrip_all as Hall.
  rewrite forallb_forall in Hall.
  specialize (Hall (Z.to_nat frame_id)).
  unfold frame_id_roundtrips in Hall. rewrite Z2Nat.id in Hall by lia.
  apply Z.eqb_eq, Hall. apply in_seq. lia.
Qed.

(** C5.  On a video frame (audio flag not set) [check_frame] reads the
    frame id in the first pixel [c] as [r<<8 | g<<4 | b], with [r], [g],
    [b] the pixel shifted right by 20, 12 and 4 bits and masked with
    [0xf]: this is [256 r + 16 g + b], below 4096, whatever the low nibble
    of the pixel, and the id packed by [pixel_of_frame_id] is read back.
    The colour-derived time is that id over 25, less the skew, and a
    difference to it greater than [1/25] fails the frame.  With the audio
    flag the pixel is not looked at: the verdict is that of the timestamp
    alone. *)
Theorem check_frame_color :
  (forall c,
      let r := Z.land (Z.shiftr c 20) 0xf in
      let g := Z.land (Z.shiftr c 12) 0xf in
      let b := Z.land (Z.shiftr c 4) 0xf in
      frame_id_of_pixel c = Z.lor (Z.lor (Z.shiftl r 8) (Z.shiftl g 4)) b
      /\ frame_id_of_pixel c = 256 * r + 16 * g + b
      /\ 0 <= frame_id_of_pixel c < 4096)
  /\ (forall c x, 0 <= x < 16 ->
                  frame_id_of_pixel (Z.lxor c x) = frame_id_of_pixel c)
  /\ (forall frame_id, 0 <= frame_id < 4096 ->
                       frame_id_of_pixel (pixel_of_frame_id frame_id) = frame_id)
  /\ (forall f t flags,
         flag_set flags FLAG_AUDIO = false ->
         let skip := if flag_set flags FLAG_SKIP then TESTVAL_SKIP else 0%float in
         let estimated_time_from_color :=
           (double_of_int (frame_id_of_pixel (data0 f)) * 1
            / double_of_int SOURCE_FPS - skip)%float in
         check_frame f t flags =
         if double_gt
              (PrimFloat.abs
                 (playback_time t flags - estimated_time_from_color)%float)
              tolerance
         then -1
         else if double_gt (diff_ts f t flags) tolerance then -1 else 0)
  /\ (forall f t flags,
         flag_set flags FLAG_AUDIO = true ->
         check_frame f t flags =
         (if double_gt (diff_ts f t flags) tolerance then -1 else 0)
         /\ forall c, check_frame {| data0 := c; ts := ts f |} t flags =
                      check_frame f t flags).
Proof.
  split; [|split; [exact frame_id_of_pixel_reserved|
                   split; [exact frame_id_of_pixel_of_frame_id|split]]].
  - intros c r g b. split; [reflexivity|].
    rewrite frame_id_of_pixel_sum. fold r g b. split; [reflexivity|].
    pose proof (nibble_range (Z.shiftr c 20)).
    pose proof (nibble_range (Z.shiftr c 12)).
    pose proof (nibble_range (Z.shiftr c 4)).
    subst r g b. lia.
  - intros f t flags Ha skip e. rewrite check_frame_unfold, Ha. reflexivity.
  - intros f t flags Ha. split.
    + rewrite check_frame_unfold, Ha. reflexivity.
    + intros c. rewrite !check_frame_unfold, Ha. reflexivity.
Qed.

(** ** The probe actions and the executor *)

Section ExecutorFacts.

Context {ctx : Type} {P : Player ctx}.

Lemma keeps_ret {A : Type} (x : A) : keeps_log (ctx := ctx) (ret x).
Proof. intros w y w' [= _ <-]. reflexivity. Qed.

Lemma keeps_undefined {A : Type} : keeps_log (@undefined ctx A).
Proof. intros w y w' [=]. Qed.

Lemma keeps_bind {A B : Type} (m : M ctx A) (k : A -> M ctx B) :
  keeps_log m -> (forall x, keeps_log (k x)) -> keeps_log (bind m k).
Proof.
  intros Hm Hk w y w'. unfold bind.
  destruct (m w) as [[x w1]|] eqn:E; [|discriminate].
  intros H. rewrite (Hk _ _ _ _ H). exact (Hm _ _ _ E).
Qed.

Lemma keeps_hand_out (w : world ctx) (s : ctx) (f : option sxplayer_frame) :
  invoked (snd (hand_out w s f)) = invoked w.
Proof. destruct f; reflexivity. Qed.

Lemma keeps_prefetch : keeps_log prefetch.
Proof.
  intros w x w'. unfold prefetch.
  destruct (sxplayer_prefetch (session w)). intros [= _ <-]. reflexivity.
Qed.

Lemma keeps_get_info : keeps_log get_info.
Proof.
  intros w x w'. unfold get_info.
  destruct (sxplayer_get_info (session w)) as [[r info] s].
  intros [= _ <-]. reflexivity.
Qed.

Lemma keeps_get_frame (t : float) : keeps_log (ctx := ctx) (get_frame t).
Proof.
  intros w x w'. unfold get_frame.
  destruct (sxplayer_get_frame (session w) t) as [f s].
  intros [= H]. rewrite <- (keeps_hand_out w s f), H. reflexivity.
Qed.

Lemma keeps_get_next_frame : keeps_log get_next_frame.
Proof.
  intros w x w'. unfold get_next_frame.
  destruct (sxplayer_get_next_frame (session w)) as [f s].
  intros [= H]. rewrite <- (keeps_hand_out w s f), H. reflexivity.
Qed.

Lemma keeps_release_frame (p : frame_ptr) : keeps_log (ctx := ctx) (release_frame p).
Proof.
  destruct p as [[id f]|]; [|apply keeps_ret].
  intros w x w' [= _ <-]. reflexivity.
Qed.

Lemma keeps_check (p : frame_ptr) (t : float) (flags : Z) :
  keeps_log (ctx := ctx) (check p t flags).
Proof.
  destruct p as [[id f]|]; [apply keeps_ret | apply keeps_undefined].
Qed.

Lemma keeps_check_frames (l : list (frame_ptr * float)) (flags : Z) :
  forall last, keeps_log (ctx := ctx) (check_frames l flags last).
Proof.
  induction l as [|[f t] l IH]; intros last; cbn [check_frames].
  - apply keeps_ret.
  - apply keeps_bind; [apply keeps_check|].
    intros r. destruct (r <? 0); [apply keeps_ret | apply IH].
Qed.

Create HintDb keeps_log_db.

#[local] Hint Resolve keeps_ret keeps_undefined keeps_prefetch keeps_get_info
  keeps_get_frame keeps_get_next_frame keeps_release_frame keeps_check
  keeps_check_frames : keeps_log_db.

Ltac keeps_log_step :=
  match goal with
  | |- keeps_log (bind _ _) => apply keeps_bind; [|intros ?]
  | |- keeps_log (if ?b then _ else _) => destruct b
  | |- keeps_log (match ?x with Some _ => _ | None => _ end) => destruct x
  | |- keeps_log (let '(_, _) := ?x in _) => destruct x
  | |- keeps_log _ => solve [auto with keeps_log_db]
  end.

Lemma keeps_action (action : Z) (name : string) (func : Z -> M ctx Z) :
  actions_desc action = Some (name, func) ->
  forall flags, keeps_log (ctx := ctx) (func flags).
Proof.
  unfold actions_desc.
  repeat match goal with
         | |- (if ?b then _ else _) = _ -> _ => destruct b
         end;
    intros [= _ <-] flags;
    [ unfold action_prefetch | unfold action_fetch_info | unfold action_start
    | unfold action_middle | unfold action_end ];
    repeat keeps_log_step.
Qed.

Lemma call_action_log (action flags : Z) (w : world ctx) (r : Z) (w' : world ctx) :
  call_action action flags w = Some (r, w') ->
  invoked w' = invoked w ++ [action].
Proof.
  unfold call_action.
  destruct (actions_desc action) as [[name func]|] eqn:E; [|discriminate].
  intros H. apply (keeps_action _ _ _ E flags) in H. exact H.
Qed.

Lemma exec_comb_loop_run (n : nat) (comb flags : Z) :
  forall i w, exec_comb_loop n comb i flags w =
              run_sequence (comb_actions_from n comb i) flags w.
Proof.
  induction n as [|n IH]; intros i w; cbn [exec_comb_loop comb_actions_from];
    [reflexivity|].
  destruct (GET_ACTION comb i =? 0); [reflexivity|].
  cbn [run_sequence]. unfold bind.
  destruct (call_action _ flags w) as [[r w1]|]; [|reflexivity].
  destruct (r <? 0); [reflexivity|]. apply IH.
Qed.

Lemma run_sequence_log (l : list Z) (flags : Z) :
  forall w r w',
    run_sequence l flags w = Some (r, w') ->
    exists k, (k <= length l)%nat
              /\ invoked w' = invoked w ++ firstn k l
              /\ ((r = 0 /\ k = length l) \/ (r < 0 /\ (1 <= k)%nat)).
Proof.
  induction l as [|a l IH]; intros w r w'; cbn [run_sequence].
  - intros [= <- <-]. exists 0%nat. cbn [firstn length].
    rewrite app_nil_r. auto.
  - unfold bind.
    destruct (call_action a flags w) as [[r1 w1]|] eqn:E; [|discriminate].
    apply call_action_log in E.
    destruct (Z.ltb_spec r1 0) as [Hneg|Hpos].
    + intros [= <- <-]. exists 1%nat. cbn [firstn length].
      split; [lia|]. split; [assumption|]. right. split; [assumption | lia].
    + intros H. destruct (IH _ _ _ H) as [k [Hk [Hlog Hres]]].
      exists (S k). cbn [firstn length]. split; [lia|]. split.
      * rewrite Hlog, E, <- app_assoc. reflexivity.
      * destruct Hres as [[-> ->]|[Hr Hk1]]; [left | right]; split;
          trivial; lia.
Qed.

Lemma run_sequence_fail_fast (l1 : list Z) (a : Z) (l2 : list Z) (flags : Z) :
  forall w w1 r w2,
    run_sequence l1 flags w = Some (0, w1) ->
    call_action a flags w1 = Some (r, w2) ->
    r < 0 ->
    run_sequence (l1 ++ a :: l2) flags w = Some (r, w2).
Proof.
  induction l1 as [|b l1 IH]; intros w w1 r w2; cbn [run_sequence app].
  - intros [= <-] Hcall Hr. unfold bind. rewrite Hcall.
    destruct (Z.ltb_spec r 0); [reflexivity | lia].
  - unfold bind.
    destruct (call_action b flags w) as [[rb wb]|]; [|discriminate].
    destruct (Z.ltb_spec rb 0) as [Hneg|Hpos].
    + intros [= -> _]. lia.
    + intros H. now apply IH.
Qed.

End ExecutorFacts.

Lemma print_comb_name_log {ctx : Type} {P : Player ctx}
  (comb flags : Z) (w w0 : world ctx) :
  print_comb_name comb flags w = Some (tt, w0) -> invoked w0 = invoked w.
Proof.
  unfold print_comb_name.
  destruct (comb_name_loop _ comb 0); [|discriminate].
  intros [= <-]. reflexivity.
Qed.

Lemma exec_comb_run {ctx : Type} {P : Player ctx} (comb flags : Z) (w : world ctx) :
  exec_comb comb flags w =
  bind (print_comb_name comb flags)
    (fun _ => run_sequence (comb_actions comb) flags) w.
Proof.
  unfold exec_comb, bind.
  destruct (print_comb_name comb flags w) as [[[] w0]|]; [|reflexivity].
  apply exec_comb_loop_run.
Qed.

(** C8.  [exec_comb] prints the name of the sequence and then is
    [run_sequence] on the actions of the comb: slot 0 first, each action
    through its entry of [actions_desc], up to the first negative result.
    So the actions called are a prefix of the sequence, in order: all of
    it when the result is 0, and otherwise a prefix that ends with the
    action whose negative result is returned, the world being as that
    action left it. *)
Theorem exec_comb_fail_fast {ctx : Type} {P : Player ctx}
  (comb flags : Z) (w : world ctx) :
  exec_comb comb flags w =
  bind (print_comb_name comb flags)
    (fun _ => run_sequence (comb_actions comb) flags) w
  /\ (forall a name func w1,
         actions_desc a = Some (name, func) ->
         call_action a flags w1 =
         func flags {| session := session w1; acquired := acquired w1;
                       released := released w1;
                       invoked := invoked w1 ++ [a]; stdout := stdout w1 |})
  /\ (forall r w',
         exec_comb comb flags w = Some (r, w') ->
         exists k, (k <= length (comb_actions comb))%nat
                   /\ invoked w' = invoked w ++ firstn k (comb_actions comb)
                   /\ ((r = 0 /\ k = length (comb_actions comb))
                       \/ (r < 0 /\ (1 <= k)%nat)))
  /\ (forall l1 a l2 w0 w1 r w2,
         comb_actions comb = l1 ++ a :: l2 ->
         print_comb_name comb flags w = Some (tt, w0) ->
         run_sequence l1 flags w0 = Some (0, w1) ->
         call_action a flags w1 = Some (r, w2) ->
         r < 0 ->
         exec_comb comb flags w = Some (r, w2)
         /\ invoked w2 = invoked w ++ l1 ++ [a]).
Proof.
  split; [apply exec_comb_run|]. split; [|split].
  - intros a name func w1 E. unfold call_action. rewrite E. reflexivity.
  - intros r w'. rewrite exec_comb_run. unfold bind.
    destruct (print_comb_name comb flags w) as [[[] w0]|] eqn:Ep;
      [|discriminate].
    intros H. rewrite <- (print_comb_name_log _ _ _ _ Ep).
    exact (run_sequence_log _ _ _ _ _ H).
  - intros l1 a l2 w0 w1 r w2 Hl Hp Hrun Hcall Hr. split.
    + rewrite exec_comb_run. unfold bind. rewrite Hp, Hl.
      exact (run_sequence_fail_fast _ _ _ _ _ _ _ _ Hrun Hcall Hr).
    + apply call_action_log in Hcall.
      destruct (run_sequence_log _ _ _ _ _ Hrun) as [k [Hk [Hlog Hres]]].
      destruct Hres as [[_ ->]|[Hneg _]]; [|lia].
      rewrite firstn_all in Hlog.
      rewrite Hcall, Hlog, (print_comb_name_log _ _ _ _ Hp), app_assoc.
      reflexivity.
Qed.

(** C10.  [action_fetch_info] asks the player for the stream
    information.  Its result is 0 exactly when [sxplayer_get_info] does
    not fail and reports a width of 16 and a height of 16; it is the
    player's negative result when the call fails, and -1 for other
    dimensions.  Only the session changes. *)
Theorem action_fetch_info_spec {ctx : Type} {P : Player ctx}
  (flags : Z) (w : world ctx) (r : Z) (info : sxplayer_info) (s : ctx) :
  sxplayer_get_info (session w) = (r, info, s) ->
  exists v,
    action_fetch_info flags w = Some (v, with_session w s)
    /\ (v = 0 <-> 0 <= r /\ width info = 16 /\ height info = 16)
    /\ (r < 0 -> v = r)
    /\ (0 <= r -> ~ (width info = 16 /\ height info = 16) -> v = -1).
Proof.
  intros E. unfold action_fetch_info, bind, get_info. rewrite E.
  destruct (Z.ltb_spec r 0) as [Hneg|Hpos].
  - exists r. split; [reflexivity|]. repeat split; lia.
  - destruct (Z.eqb_spec (width info) 16) as [Hw|Hw];
      destruct (Z.eqb_spec (height info) 16) as [Hh|Hh]; cbn [negb orb].
    + exists 0. split; [reflexivity|]. repeat split; tauto || lia.
    + exists (-1). split; [reflexivity|]. repeat split; tauto || lia.
    + exists (-1). split; [reflexivity|]. repeat split; tauto || lia.
    + exists (-1). split; [reflexivity|]. repeat split; tauto || lia.
Qed.

Lemma action_fetch_info_spec_witness :
  exists v,
    action_fetch_info 0 (fresh_world middle_script)
    = Some (v, with_session (fresh_world middle_script) middle_script)
    /\ (v = 0 <-> 0 <= 0 /\ 16 = 16 /\ 16 = 16)
    /\ (0 < 0 -> v = 0)
    /\ (0 <= 0 -> ~ (16 = 16 /\ 16 = 16) -> v = -1).
Proof.
  exact (action_fetch_info_spec 0 (fresh_world middle_script) 0
           {| width := 16; height := 16 |} middle_script eq_refl).
Defined.

(** [action_end] gives back every frame it got, on each of its paths. *)
Lemma action_end_releases {ctx : Type} {P : Player ctx}
  (flags : Z) (w : world ctx) (r : Z) (w' : world ctx) :
  action_end flags w = Some (r, w') ->
  exists l, acquired w' = acquired w ++ l /\ released w' = released w ++ l.
Proof.
  unfold action_end, bind, get_frame.
  destruct (sxplayer_get_frame (session w) 999999.0%float) as [[f|] s1];
    cbn [hand_out].
  - cbn [release_frame session acquired released].
    destruct (sxplayer_get_frame s1 99999.0%float) as [[f'|] s2];
      cbn [hand_out release_frame ret session acquired released];
      intros [= _ <-]; cbn [acquired released].
    + exists [length (acquired w); length (acquired w ++ [length (acquired w)])].
      rewrite <- !app_assoc. split; reflexivity.
    + exists [length (acquired w)]. split; reflexivity.
  - intros [= _ <-]. exists []. cbn [acquired released with_session].
    rewrite !app_nil_r. split; reflexivity.
Qed.

(** What a request for a frame does to the frames handed out. *)
Lemma hand_out_frames {ctx : Type} (w : world ctx) (s : ctx)
  (f : option sxplayer_frame) :
  released (snd (hand_out w s f)) = released w
  /\ match fst (hand_out w s f) with
     | None => acquired (snd (hand_out w s f)) = acquired w
     | Some (id, _) =>
         acquired (snd (hand_out w s f)) = acquired w ++ [id]
     end.
Proof. destruct f; split; reflexivity. Qed.

Lemma get_frame_frames {ctx : Type} {P : Player ctx}
  (t : float) (w : world ctx) (p : frame_ptr) (w' : world ctx) :
  get_frame t w = Some (p, w') ->
  released w' = released w
  /\ match p with
     | None => acquired w' = acquired w
     | Some (id, _) => acquired w' = acquired w ++ [id]
     end.
Proof.
  unfold get_frame. destruct (sxplayer_get_frame (session w) t) as [f s].
  intros [= H]. pose proof (hand_out_frames w s f) as Hh.
  rewrite H in Hh. exact Hh.
Qed.

Lemma get_next_frame_frames {ctx : Type} {P : Player ctx}
  (w : world ctx) (p : frame_ptr) (w' : world ctx) :
  get_next_frame w = Some (p, w') ->
  released w' = released w
  /\ match p with
     | None => acquired w' = acquired w
     | Some (id, _) => acquired w' = acquired w ++ [id]
     end.
Proof.
  unfold get_next_frame. destruct (sxplayer_get_next_frame (session w)) as [f s].
  intros [= H]. pose proof (hand_out_frames w s f) as Hh.
  rewrite H in Hh. exact Hh.
Qed.

(** The checks change nothing, and pass only on frames that exist. *)
Lemma check_frames_pass {ctx : Type} (l : list (frame_ptr * float)) (flags : Z) :
  forall last (w : world ctx) r w',
    check_frames l flags last w = Some (r, w') ->
    w' = w /\ (r < 0 \/ Forall (fun p => fst p <> None) l).
Proof.
  induction l as [|[p t] l IH]; intros last w r w'; cbn [check_frames].
  - intros [= <- <-]. auto.
  - unfold bind, check. destruct p as [[id f]|]; [|discriminate].
    cbn [ret]. destruct (Z.ltb_spec (check_frame f t flags) 0) as [Hneg|Hpos].
    + intros [= <- <-]. auto.
    + intros H. destruct (IH _ _ _ _ H) as [-> [Hr|Hall]]; [auto|].
      split; [reflexivity|]. right. constructor; [discriminate | assumption].
Qed.

Ltac split_at a r k :=
  match r with
  | a :: ?t => k (@nil nat) t
  | ?b :: ?t => split_at a t ltac:(fun l1 l2 => k (b :: l1) l2)
  end.

Ltac permutation_of_lists :=
  match goal with
  | |- Permutation [] [] => constructor
  | |- Permutation (?a :: ?l) ?r =>
      split_at a r ltac:(fun l1 l2 =>
        apply (Permutation_cons_app l1 l2 a); cbn [app];
        permutation_of_lists)
  end.

(** When [action_middle] does not fail, it has given back, once each, the
    frames it got. *)
Lemma action_middle_success_releases {ctx : Type} {P : Player ctx}
  (flags : Z) (w : world ctx) (r : Z) (w' : world ctx) :
  action_middle flags w = Some (r, w') ->
  0 <= r ->
  exists l l', acquired w' = acquired w ++ l
               /\ released w' = released w ++ l'
               /\ Permutation l l'.
Proof.
  unfold action_middle, bind.
  destruct (get_frame _ w) as [[f0 w1]|] eqn:E0; [|discriminate].
  destruct (get_frame _ w1) as [[f1 w2]|] eqn:E1; [|discriminate].
  destruct (get_frame _ w2) as [[f2 w3]|] eqn:E2; [|discriminate].
  destruct (get_frame _ w3) as [[f3 w4]|] eqn:E3; [|discriminate].
  destruct (get_next_frame w4) as [[f4 w5]|] eqn:E4; [|discriminate].
  destruct (get_next_frame w5) as [[f5 w6]|] eqn:E5; [|discriminate].
  destruct (check_frames _ flags 0 w6) as [[r1 w7]|] eqn:C1; [|discriminate].
  apply check_frames_pass in C1. destruct C1 as [-> C1].
  destruct (Z.ltb_spec r1 0) as [Hneg|Hpos]; [intros [= <- _]; lia|].
  destruct C1 as [C1|C1]; [lia|].
  repeat match goal with
         | H : Forall _ (_ :: _) |- _ => inversion H; subst; clear H
         end.
  destruct f0 as [[n0 g0]|]; [|cbn in *; congruence].
  destruct f1 as [[n1 g1]|]; [|cbn in *; congruence].
  destruct f2 as [[n2 g2]|]; [|cbn in *; congruence].
  destruct f3 as [[n3 g3]|]; [|cbn in *; congruence].
  destruct f4 as [[n4 g4]|]; [|cbn in *; congruence].
  destruct f5 as [[n5 g5]|]; [|cbn in *; congruence].
  apply get_frame_frames in E0, E1, E2, E3.
  apply get_next_frame_frames in E4, E5.
  cbn [release_frame].
  match goal with
  | |- context [get_next_frame ?x] =>
      destruct (get_next_frame x) as [[f6 w8]|] eqn:E6; [|discriminate]
  end.
  destruct (get_frame _ w8) as [[f7 w9]|] eqn:E7; [|discriminate].
  destruct (get_frame _ w9) as [[f8 w10]|] eqn:E8; [|discriminate].
  destruct (check_frames _ flags 0 w10) as [[r2 w11]|] eqn:C2; [|discriminate].
  apply check_frames_pass in C2. destruct C2 as [-> C2].
  destruct (Z.ltb_spec r2 0) as [Hneg2|Hpos2]; [intros [= <- _]; lia|].
  destruct C2 as [C2|C2]; [lia|].
  repeat match goal with
         | H : Forall _ (_ :: _) |- _ => inversion H; subst; clear H
         end.
  destruct f6 as [[n6 g6]|]; [|cbn in *; congruence].
  destruct f7 as [[n7 g7]|]; [|cbn in *; congruence].
  destruct f8 as [[n8 g8]|]; [intros [= <- _]; lia|].
  apply get_next_frame_frames in E6. apply get_frame_frames in E7, E8.
  cbn [release_frame ret]. intros [= _ <-] _.
  cbn [acquired released] in *.
  destruct E0 as [R0 A0], E1 as [R1 A1], E2 as [R2 A2], E3 as [R3 A3],
    E4 as [R4 A4], E5 as [R5 A5], E6 as [R6 A6], E7 as [R7 A7], E8 as [R8 A8].
  exists [n0; n1; n2; n3; n4; n5; n6; n7], [n0; n5; n1; n4; n2; n3; n7; n6].
  split; [|split].
  - rewrite A8, A7, A6. cbn [acquired].
    rewrite A5, A4, A3, A2, A1, A0, <- !app_assoc. reflexivity.
  - rewrite R8, R7, R6. cbn [released].
    rewrite R5, R4, R3, R2, R1, R0, <- !app_assoc. reflexivity.
  - permutation_of_lists.
Qed.

(** C7 fails on the program.  With a player stuck on the first frame of
    the stream, the first check of [action_middle] fails: the action
    returns -1 having got six frames and given none back.  The other
    probe to fail with frames in hand, [action_end], gives them back
    first, and so does [action_middle] when it does not fail, as it does
    on [middle_script]. *)
Theorem action_middle_leaks :
  action_middle 0 (fresh_world (stuck_script 6)) =
  Some (-1, {| session := []; acquired := [0; 1; 2; 3; 4; 5]%nat;
               released := []; invoked := []; stdout := [] |})
  /\ action_middle 0 (fresh_world middle_script) =
     Some (0, {| session := []; acquired := [0; 1; 2; 3; 4; 5; 6; 7]%nat;
                 released := [0; 5; 1; 4; 2; 3; 7; 6]%nat;
                 invoked := []; stdout := [] |})
  /\ (forall (ctx : Type) (P : Player ctx) flags (w : world ctx) r w',
         action_end flags w = Some (r, w') ->
         exists l, acquired w' = acquired w ++ l
                   /\ released w' = released w ++ l)
  /\ (forall (ctx : Type) (P : Player ctx) flags (w : world ctx) r w',
         action_middle flags w = Some (r, w') ->
         0 <= r ->
         exists l l', acquired w' = acquired w ++ l
                      /\ released w' = released w ++ l'
                      /\ Permutation l l').
Proof.
  split; [reflexivity|]. split; [reflexivity|]. split.
  - intros ctx P. exact action_end_releases.
  - intros ctx P. exact action_middle_success_releases.
Qed.

(** ** The statements above, at concrete arguments *)

Lemma enumeration_complete_witness :
  emitted_combs 326 256 0 = Some enumeration
  /\ In [ACTION_START; ACTION_PREFETCH] (map comb_actions enumeration)
  /\ comb_of_actions (comb_actions 0x13) = 0x13.
Proof.
  destruct enumeration_complete as [H1 [_ [_ [_ [H5 H6]]]]].
  split; [exact (H1 326%nat 256%nat (le_n _) (le_n _))|]. split.
  - apply H5. apply valid_sequenceb_spec. reflexivity.
  - apply H6. apply memZ_In. reflexivity.
Defined.

Lemma check_frame_tolerance_witness :
  check_frame (stream_frame 752) 30.1%float 0 = 0 <->
  PrimFloat.leb (diff_ts (stream_frame 752) 30.1%float 0) tolerance = true
  /\ (flag_set 0 FLAG_AUDIO = false ->
      PrimFloat.leb (diff_color (stream_frame 752) 30.1%float 0) tolerance = true).
Proof.
  exact (proj1 (proj2 (proj2 (check_frame_tolerance (stream_frame 752) 30.1%float 0)))
           eq_refl (fun _ => eq_refl)).
Defined.

Lemma check_frame_color_witness :
  frame_id_of_pixel (Z.lxor (pixel_of_frame_id 752) 9)
  = frame_id_of_pixel (pixel_of_frame_id 752)
  /\ frame_id_of_pixel (pixel_of_frame_id 752) = 752
  /\ check_frame (stream_frame 0) 30.1%float FLAG_AUDIO =
     (if double_gt (diff_ts (stream_frame 0) 30.1%float FLAG_AUDIO) tolerance
      then -1 else 0).
Proof.
  destruct check_frame_color as [_ [H2 [H3 [_ H5]]]].
  split; [apply H2; lia|]. split; [apply H3; lia|].
  apply (H5 (stream_frame 0) 30.1%float FLAG_AUDIO). reflexivity.
Defined.

Lemma exec_comb_stuck :
  exec_comb 0x543 0 (fresh_world (stuck_script 7))
  = Some (-1, {| session := []; acquired := [0; 1; 2; 3; 4; 5; 6]%nat;
                 released := [0]%nat;
                 invoked := [ACTION_START; ACTION_MIDDLE];
                 stdout := [":: test-video-start-middle-end"%string] |}).
Proof. vm_compute. reflexivity. Qed.

Lemma exec_comb_fail_fast_witness :
  exists k,
    (k <= length (comb_actions 0x543))%nat
    /\ [ACTION_START; ACTION_MIDDLE] = [] ++ firstn k (comb_actions 0x543)
    /\ ((-1 = 0 /\ k = length (comb_actions 0x543))
        \/ (-1 < 0 /\ (1 <= k)%nat)).
Proof.
  exact (proj1 (proj2 (proj2
           (exec_comb_fail_fast 0x543 0 (fresh_world (stuck_script 7)))))
           (-1) _ exec_comb_stuck).
Defined.

Lemma enumeration_terminates_witness :
  comb_iter 326 256 0 = Some EOA
  /\ (exists c, comb_iter 325 256 0 = Some c /\ c <> EOA)
  /\ exists fuel r, forall fuel', (fuel <= fuel')%nat ->
                                  get_next_comb fuel' 0xf55 = Some r.
Proof.
  destruct enumeration_terminates as [H1 H2].
  destruct (H1 256%nat (le_n _)) as [Ha Hb].
  split; [exact Hb|]. split; [apply Ha; lia | apply H2].
Defined.

(** * Further properties of the program *)

(** ** The enumerator on any comb *)

Lemma comb_of_actions_undigits (l : list Z) :
  Forall slot_ok l -> comb_of_actions l = undigits l.
Proof.
  induction 1 as [|a l Ha _ IH]; cbn [comb_of_actions undigits]; [reflexivity|].
  change (Z.shiftl (comb_of_actions l) BITS_PER_ACTION)
    with (Z.shiftl (comb_of_actions l) (1 * BITS_PER_ACTION)).
  rewrite lor_shiftl_add by (unfold slot_ok in Ha; simpl; lia).
  rewrite IH. simpl (16 ^ 1). lia.
Qed.

Lemma comb_actions_from_slots (n : nat) (c : Z) :
  forall i, comb_actions_from n c i = live_prefix (slots n c i).
Proof.
  induction n as [|n IH]; intros i; cbn [comb_actions_from slots live_prefix];
    [reflexivity|].
  destruct (GET_ACTION c i =? 0); [reflexivity|]. now rewrite IH.
Qed.

Lemma undigits_app_zeros (l : list Z) (k : nat) :
  undigits (l ++ repeat 0 k) = undigits l.
Proof.
  induction l as [|a l IH]; cbn [app undigits].
  - apply undigits_zeros.
  - now rewrite IH.
Qed.

Lemma live_prefix_app_zeros (l : list Z) (k : nat) :
  Forall (fun a => a <> 0) l -> live_prefix (l ++ repeat 0 k) = l.
Proof.
  induction 1 as [|a l Ha _ IH]; cbn [app live_prefix].
  - destruct k; reflexivity.
  - destruct (Z.eqb_spec a 0); [contradiction|]. now rewrite IH.
Qed.

Lemma comb_actions_of_actions (s : list Z) :
  (length s <= Z.to_nat NB_ACTIONS)%nat ->
  Forall (fun a => 1 <= a < 16) s ->
  comb_actions (comb_of_actions s) = s.
Proof.
  intros Hlen Hall.
  assert (Forall slot_ok s) as Hok
    by (revert Hall; apply Forall_impl; unfold slot_ok; lia).
  assert (Forall (fun a => a <> 0) s) as Hnz
    by (revert Hall; apply Forall_impl; lia).
  unfold comb_actions. rewrite comb_actions_from_slots.
  rewrite (comb_of_actions_undigits s Hok).
  set (k := (Z.to_nat NB_ACTIONS - length s)%nat).
  rewrite <- (undigits_app_zeros s k).
  assert (length (s ++ repeat 0 k) = Z.to_nat NB_ACTIONS) as Hk
    by (rewrite length_app, repeat_length; subst k; lia).
  rewrite <- Hk. rewrite slots_undigits.
  - now apply live_prefix_app_zeros.
  - apply Forall_app. split; [assumption | apply zeros_ok].
Qed.

(** X1.  [has_dup] answers 0 or 1 on every comb, stray slots included,
    and it answers 0 exactly when no action occurs twice among the slots
    before the first empty one. *)
Theorem has_dup_decides (comb : Z) :
  (has_dup comb = 0 \/ has_dup comb = 1)
  /\ (has_dup comb = 0 <-> NoDup (comb_actions comb))
  /\ (has_dup comb = 1 <-> ~ NoDup (comb_actions comb)).
Proof.
  pose proof (has_dup_NoDup comb) as H. rewrite has_dup_spec in *.
  destruct (nodupb (comb_actions comb)).
  - split; [now left|]. split; [assumption|].
    split; [discriminate|]. intros Hn. exfalso. apply Hn, H. reflexivity.
  - split; [now right|]. split; [assumption|].
    split; [|reflexivity]. intros _ Hn. apply H in Hn. discriminate.
Qed.

(** X2.  A list of at most six actions, each from 1 to 15, is read back
    from the comb that holds it: [GET_ACTION] takes the slots apart. *)
Theorem comb_actions_roundtrip (s : list Z) :
  (length s <= 6)%nat ->
  Forall (fun a => 1 <= a < 16) s ->
  comb_actions (comb_of_actions s) = s
  /\ forall i, (i < length s)%nat ->
               GET_ACTION (comb_of_actions s) (Z.of_nat i) = nth i s 0.
Proof.
  intros Hlen Hall. split; [now apply comb_actions_of_actions|].
  assert (Forall slot_ok s) as Hok
    by (revert Hall; apply Forall_impl; unfold slot_ok; lia).
  rewrite (comb_of_actions_undigits s Hok).
  clear Hlen Hall. induction Hok as [|a l Ha Hl IH]; intros i Hi;
    cbn [length] in Hi; [lia|].
  cbn [undigits]. destruct i as [|i].
  - cbn [nth]. now apply GET_ACTION_cons_0.
  - cbn [nth]. rewrite Nat2Z.inj_succ, <- Z.add_1_r.
    rewrite GET_ACTION_cons_S by (try assumption; lia).
    apply IH. lia.
Qed.

Lemma comb_actions_roundtrip_witness :
  comb_actions (comb_of_actions [ACTION_END; 15; ACTION_PREFETCH])
  = [ACTION_END; 15; ACTION_PREFETCH]
  /\ forall i, (i < 3)%nat ->
               GET_ACTION (comb_of_actions [ACTION_END; 15; ACTION_PREFETCH])
                 (Z.of_nat i)
               = nth i [ACTION_END; 15; ACTION_PREFETCH] 0.
Proof.
  apply (comb_actions_roundtrip [ACTION_END; 15; ACTION_PREFETCH]).
  - simpl. lia.
  - repeat constructor; unfold ACTION_END, ACTION_PREFETCH; lia.
Defined.

Lemma GET_ACTION_low (c i : Z) :
  0 <= i < NB_ACTIONS -> GET_ACTION (c mod 2 ^ 24) i = GET_ACTION c i.
Proof.
  intros Hi. unfold GET_ACTION, BITS_PER_ACTION, NB_ACTIONS in *.
  change (Z.shiftl 1 4 - 1) with (Z.ones 4).
  rewrite <- (Z.land_ones c 24) by lia.
  apply Z.bits_inj'. intros n Hn.
  rewrite !Z.land_spec, !Z.shiftr_spec, Z.land_spec by assumption.
  destruct (Z.ltb_spec n 4).
  - rewrite (Z.ones_spec_low 24) by lia. now rewrite andb_true_r.
  - rewrite (Z.ones_spec_high 4) by lia. now rewrite !andb_false_r.
Qed.

Lemma slots_low (n : nat) (c : Z) :
  forall i, 0 <= i -> i + Z.of_nat n <= NB_ACTIONS ->
            slots n (c mod 2 ^ 24) i = slots n c i.
Proof.
  induction n as [|n IH]; intros i Hi Hn; cbn [slots]; [reflexivity|].
  rewrite GET_ACTION_low, IH by lia. reflexivity.
Qed.

Lemma next_candidate_low (c : Z) :
  next_candidate (c mod 2 ^ 24) = next_candidate c.
Proof.
  rewrite !next_candidate_slots, slots_low by (unfold NB_ACTIONS; simpl; lia).
  reflexivity.
Qed.

(** X3.  [get_next_comb] reads the six slots of its argument and nothing
    else: combs that agree on their low 24 bits have the same successor;
    and what it returns, [EOA] or not, is below [2 ^ 24], whatever the
    argument. *)
Theorem get_next_comb_low_bits (fuel : nat) (comb : Z) :
  get_next_comb fuel (comb mod 2 ^ 24) = get_next_comb fuel comb
  /\ has_dup (comb mod 2 ^ 24) = has_dup comb
  /\ forall r, get_next_comb fuel comb = Some r -> 0 <= r < 2 ^ 24.
Proof.
  split; [|split].
  - destruct fuel as [|fuel]; [reflexivity|].
    rewrite !get_next_comb_S, next_candidate_low. reflexivity.
  - rewrite !has_dup_spec. unfold comb_actions.
    rewrite !comb_actions_from_slots, slots_low
      by (unfold NB_ACTIONS; simpl; lia).
    reflexivity.
  - intros r. apply get_next_comb_range.
Qed.

Lemma successor_checked_all : forallb successor_checked action_lists = true.
Proof. vm_compute. reflexivity. Qed.

Lemma action_lists_complete (s : list Z) :
  (length s <= 5)%nat -> Forall (fun a => 1 <= a <= 5) s -> In s action_lists.
Proof.
  intros Hlen Hall. unfold action_lists. apply in_flat_map.
  exists (length s). split; [simpl; lia|].
  apply lists_of_length_complete. revert Hall. apply Forall_impl.
  intros a Ha. simpl. lia.
Qed.

(** X4.  On a comb that holds at most five actions among 1..5, with or
    without a duplicate, [get_next_comb] returns the least comb of the
    enumeration above it, and [EOA] when there is none: it never skips a
    sequence and never goes back, so that the enumeration can be taken up
    from any sequence. *)
Theorem get_next_comb_least_greater (s : list Z) (fuel : nat) :
  (length s <= 5)%nat ->
  Forall (fun a => 1 <= a <= 5) s ->
  (256 <= fuel)%nat ->
  exists r,
    get_next_comb fuel (comb_of_actions s) = Some r
    /\ r = least_greater (comb_of_actions s)
    /\ ((r = EOA /\ forall x, In x enumeration -> x <= comb_of_actions s)
        \/ (In r enumeration /\ comb_of_actions s < r
            /\ forall x, In x enumeration -> comb_of_actions s < x -> r <= x)).
Proof.
  intros Hlen Hall Hfuel.
  pose proof successor_checked_all as H. rewrite forallb_forall in H.
  specialize (H s (action_lists_complete s Hlen Hall)).
  unfold successor_checked in H.
  destruct (get_next_comb 256 (comb_of_actions s)) as [r|] eqn:E;
    [|discriminate].
  exists r. split; [exact (get_next_comb_fuel_mono _ _ _ _ Hfuel E)|].
  apply andb_true_iff in H. destruct H as [H1 H2].
  split; [now apply Z.eqb_eq|].
  apply orb_true_iff in H2. destruct H2 as [H2|H2].
  - left. apply andb_true_iff in H2. destruct H2 as [H2 H3].
    split; [now apply Z.eqb_eq|]. rewrite forallb_forall in H3.
    intros x Hx. apply Z.leb_le. now apply H3.
  - right. apply andb_true_iff in H2. destruct H2 as [H2 H4].
    apply andb_true_iff in H2. destruct H2 as [H2 H3].
    split; [now apply memZ_In|]. split; [now apply Z.ltb_lt|].
    rewrite forallb_forall in H4. intros x Hx Hlt. specialize (H4 x Hx).
    apply Z.ltb_lt in Hlt. rewrite Hlt in H4. now apply Z.leb_le.
Qed.

Lemma get_next_comb_least_greater_witness :
  exists r,
    get_next_comb 256 (comb_of_actions [ACTION_START; ACTION_START]) = Some r
    /\ r = least_greater (comb_of_actions [ACTION_START; ACTION_START])
    /\ ((r = EOA
         /\ forall x, In x enumeration ->
                      x <= comb_of_actions [ACTION_START; ACTION_START])
        \/ (In r enumeration
            /\ comb_of_actions [ACTION_START; ACTION_START] < r
            /\ forall x, In x enumeration ->
                         comb_of_actions [ACTION_START; ACTION_START] < x ->
                         r <= x)).
Proof.
  apply (get_next_comb_least_greater [ACTION_START; ACTION_START] 256).
  - simpl. lia.
  - repeat constructor; unfold ACTION_START; lia.
  - apply le_n.
Defined.

(** ** The name of a sequence, and what [exec_comb] reads of a comb *)

Lemma append_empty_r (x : string) : (x ++ "")%string = x.
Proof. induction x as [|c x IH]; cbn; [|rewrite IH]; reflexivity. Qed.

Lemma append_assoc (x y z : string) :
  ((x ++ y) ++ z)%string = (x ++ y ++ z)%string.
Proof. induction x as [|c x IH]; cbn; [|rewrite IH]; reflexivity. Qed.

Lemma actions_desc_cases {ctx : Type} {P : Player ctx} (a : Z) :
  (1 <= a <= 5 /\ exists func, actions_desc a = Some (action_name a, func))
  \/ (~ 1 <= a <= 5 /\ actions_desc (ctx := ctx) a = None).
Proof.
  unfold actions_desc, action_name, ACTION_PREFETCH, ACTION_FETCH_INFO,
    ACTION_START, ACTION_MIDDLE, ACTION_END.
  repeat match goal with
         | |- context [Z.eqb a ?k] => destruct (Z.eqb_spec a k)
         end; try (left; split; [lia | eexists; reflexivity]).
  right. split; [lia | reflexivity].
Qed.

Lemma comb_name_loop_names {ctx : Type} {P : Player ctx} (n : nat) (comb : Z) :
  forall i, 0 <= i ->
            comb_name_loop n comb i =
            names_from (i =? 0) (comb_actions_from n comb i).
Proof.
  induction n as [|n IH]; intros i Hi;
    cbn [comb_name_loop comb_actions_from names_from]; [reflexivity|].
  destruct (GET_ACTION comb i =? 0); [reflexivity|].
  cbn [names_from]. rewrite IH by lia.
  replace (i + 1 =? 0) with false by (symmetry; apply Z.eqb_neq; lia).
  reflexivity.
Qed.

Lemma names_from_concat {ctx : Type} {P : Player ctx} (l : list Z) :
  Forall (fun a => 1 <= a <= 5) l ->
  names_from true l = Some (String.concat "-" (map action_name l))
  /\ names_from false l =
     Some (match l with
           | [] => ""
           | _ => "-" ++ String.concat "-" (map action_name l)
           end)%string.
Proof.
  induction 1 as [|a l Ha Hl [IH1 IH2]]; [split; reflexivity|].
  cbn [names_from].
  destruct (actions_desc_cases a) as [[_ [func E]]|[Hn _]]; [|contradiction].
  rewrite E, IH2. destruct l as [|b l].
  - cbn [map String.concat]. rewrite append_empty_r. split; reflexivity.
  - split; reflexivity.
Qed.

Lemma names_from_stray {ctx : Type} {P : Player ctx} (l : list Z) :
  ~ Forall (fun a => 1 <= a <= 5) l ->
  forall first, names_from first l = None.
Proof.
  induction l as [|a l IH]; intros Hn first.
  - exfalso. apply Hn. constructor.
  - cbn [names_from].
    destruct (actions_desc_cases a) as [[Ha [func E]]|[_ E]]; rewrite E;
      [|reflexivity].
    rewrite IH; [reflexivity|]. intros Hl. apply Hn. now constructor.
Qed.

(** X5.  [print_comb_name] has a defined behaviour exactly on the combs
    whose actions are all entries of [actions_desc] (1 to 5).  It then
    adds one line and changes nothing else: the prefix for the flags,
    followed by the names of the actions joined by dashes.  On a comb with
    another action it reads past the end of the table. *)
Theorem print_comb_name_line {ctx : Type} {P : Player ctx}
  (comb flags : Z) (w : world ctx) :
  (Forall (fun a => 1 <= a <= 5) (comb_actions comb) ->
   print_comb_name comb flags w =
   Some (tt, add_line w
               (name_prefix flags
                  ++ String.concat "-" (map action_name (comb_actions comb)))))
  /\ (~ Forall (fun a => 1 <= a <= 5) (comb_actions comb) ->
      print_comb_name comb flags w = None).
Proof.
  unfold print_comb_name. rewrite comb_name_loop_names by lia.
  change (0 =? 0) with true.
  change (comb_actions_from (Z.to_nat NB_ACTIONS) comb 0) with (comb_actions comb).
  split; intros H.
  - rewrite (proj1 (names_from_concat _ H)). unfold add_line, name_prefix.
    rewrite !append_assoc. reflexivity.
  - rewrite names_from_stray by assumption. reflexivity.
Qed.

Lemma print_comb_name_line_witness :
  print_comb_name 0x543 FLAG_SKIP (fresh_world middle_script) =
  Some (tt, add_line (fresh_world middle_script)
              (name_prefix FLAG_SKIP
                 ++ String.concat "-" (map action_name (comb_actions 0x543))))
  /\ print_comb_name 0x73 0 (fresh_world middle_script) = None.
Proof.
  split.
  - apply (proj1 (print_comb_name_line 0x543 FLAG_SKIP
                    (fresh_world middle_script))).
    change (Forall (fun a => 1 <= a <= 5) [3; 4; 5]).
    repeat constructor; lia.
  - apply (proj2 (print_comb_name_line 0x73 0 (fresh_world middle_script))).
    change (~ Forall (fun a => 1 <= a <= 5) [3; 7]).
    intros H. inversion H as [|a l Ha Hl]; subst.
    inversion Hl as [|b l' Hb _]; subst. lia.
Defined.

Lemma comb_actions_from_range (n : nat) (comb : Z) :
  forall i, (length (comb_actions_from n comb i) <= n)%nat
            /\ Forall (fun a => 1 <= a < 16) (comb_actions_from n comb i).
Proof.
  induction n as [|n IH]; intros i; cbn [comb_actions_from].
  - split; [apply le_n | constructor].
  - pose proof (GET_ACTION_range comb i) as Hr.
    destruct (Z.eqb_spec (GET_ACTION comb i) 0) as [E|E].
    + split; [cbn; lia | constructor].
    + destruct (IH (i + 1)) as [H1 H2]. split; [cbn [length]; lia|].
      constructor; [lia | assumption].
Qed.

Lemma comb_actions_range (comb : Z) :
  (length (comb_actions comb) <= Z.to_nat NB_ACTIONS)%nat
  /\ Forall (fun a => 1 <= a < 16) (comb_actions comb).
Proof. apply comb_actions_from_range. Qed.

Lemma exec_comb_same_actions {ctx : Type} {P : Player ctx}
  (c1 c2 flags : Z) (w : world ctx) :
  comb_actions c1 = comb_actions c2 ->
  exec_comb c1 flags w = exec_comb c2 flags w.
Proof.
  intros H. rewrite !exec_comb_run. unfold bind, print_comb_name.
  rewrite !comb_name_loop_names by lia.
  change (comb_actions_from (Z.to_nat NB_ACTIONS) c1 0) with (comb_actions c1).
  change (comb_actions_from (Z.to_nat NB_ACTIONS) c2 0) with (comb_actions c2).
  rewrite H. reflexivity.
Qed.

(** X6.  [exec_comb] reads a comb up to its first empty slot: whatever
    the slots after it hold, the comb is executed as the comb that holds
    its actions and nothing else, and two combs with the same actions
    before the first empty slot are executed alike. *)
Theorem exec_comb_stops_at_empty_slot {ctx : Type} {P : Player ctx}
  (comb flags : Z) (w : world ctx) :
  exec_comb comb flags w =
  exec_comb (comb_of_actions (comb_actions comb)) flags w
  /\ (forall c2, comb_actions c2 = comb_actions comb ->
                 exec_comb c2 flags w = exec_comb comb flags w).
Proof.
  split.
  - apply exec_comb_same_actions. symmetry.
    destruct (comb_actions_range comb) as [H1 H2].
    now apply comb_actions_of_actions.
  - intros c2 H. now apply exec_comb_same_actions.
Qed.

Lemma exec_comb_stops_at_empty_slot_witness :
  exec_comb 0x120003 0 (fresh_world (stuck_script 1)) =
  exec_comb 0x3 0 (fresh_world (stuck_script 1)).
Proof.
  apply (proj2 (exec_comb_stops_at_empty_slot 0x3 0
                  (fresh_world (stuck_script 1))) 0x120003).
  reflexivity.
Defined.

(** ** Frames are given back at most once, and only frames handed out *)

Section FrameSafety.

Context {ctx : Type} {P : Player ctx}.

Lemma frame_safe_same {A : Type} (m : M ctx A) :
  (forall w x w', m w = Some (x, w') ->
                  acquired w' = acquired w /\ released w' = released w) ->
  frame_safe m.
Proof.
  intros H w x w' E. destruct (H _ _ _ E) as [Ha Hr].
  exists 0%nat, []. cbn [seq]. rewrite !app_nil_r.
  repeat split; try assumption; [constructor | intros a []].
Qed.

Lemma frame_safe_bind {A B : Type} (m : M ctx A) (k : A -> M ctx B) :
  frame_safe m -> (forall x, frame_safe (k x)) -> frame_safe (bind m k).
Proof.
  intros Hm Hk w y w'. unfold bind.
  destruct (m w) as [[x w1]|] eqn:E; [|discriminate].
  intros E2. destruct (Hm _ _ _ E) as [k1 [l1 [A1 [R1 [N1 I1]]]]].
  destruct (Hk _ _ _ _ E2) as [k2 [l2 [A2 [R2 [N2 I2]]]]].
  rewrite A1, length_app, length_seq in A2, I2.
  exists (k1 + k2)%nat, (l1 ++ l2).
  rewrite seq_app, A2, R2, R1, <- !app_assoc.
  repeat split.
  - apply NoDup_app; try assumption.
    intros a H1 H2. apply I1 in H1. apply I2 in H2.
    apply in_seq in H1, H2. lia.
  - intros a Ha. apply in_app_iff in Ha. apply in_app_iff.
    destruct Ha as [Ha|Ha]; [left; now apply I1 | right; now apply I2].
Qed.

(** A request for a frame, when the frames handed out since a world with
    frames [A] are [k]. *)
Lemma hand_out_step (A : list nat) (k : nat) (w : world ctx) (s : ctx)
  (f : option sxplayer_frame) :
  acquired w = A ++ seq (length A) k ->
  released (snd (hand_out w s f)) = released w
  /\ acquired (snd (hand_out w s f))
     = A ++ seq (length A) (k + got (fst (hand_out w s f)))
  /\ (forall id g, fst (hand_out w s f) = Some (id, g) ->
                   id = (length A + k)%nat).
Proof.
  intros HA. destruct f as [fr|]; cbn [hand_out fst snd got acquired released
                                      with_session].
  - split; [reflexivity|]. split.
    + rewrite HA, length_app, length_seq, Nat.add_1_r, seq_S, app_assoc.
      reflexivity.
    + intros id g [= <- _]. now rewrite HA, length_app, length_seq.
  - split; [reflexivity|]. split; [now rewrite Nat.add_0_r | discriminate].
Qed.

Lemma get_frame_step (A : list nat) (k : nat) (t : float)
  (w : world ctx) (p : frame_ptr) (w' : world ctx) :
  acquired w = A ++ seq (length A) k ->
  get_frame t w = Some (p, w') ->
  released w' = released w
  /\ acquired w' = A ++ seq (length A) (k + got p)
  /\ (forall id g, p = Some (id, g) -> id = (length A + k)%nat).
Proof.
  intros HA. unfold get_frame.
  destruct (sxplayer_get_frame (session w) t) as [f s]. intros [= H].
  pose proof (hand_out_step A k w s f HA) as Hs. rewrite H in Hs. exact Hs.
Qed.

Lemma get_next_frame_step (A : list nat) (k : nat)
  (w : world ctx) (p : frame_ptr) (w' : world ctx) :
  acquired w = A ++ seq (length A) k ->
  get_next_frame w = Some (p, w') ->
  released w' = released w
  /\ acquired w' = A ++ seq (length A) (k + got p)
  /\ (forall id g, p = Some (id, g) -> id = (length A + k)%nat).
Proof.
  intros HA. unfold get_next_frame.
  destruct (sxplayer_get_next_frame (session w)) as [f s]. intros [= H].
  pose proof (hand_out_step A k w s f HA) as Hs. rewrite H in Hs. exact Hs.
Qed.

Lemma acquired_start (w : world ctx) :
  acquired w = acquired w ++ seq (length (acquired w)) 0.
Proof. cbn [seq]. now rewrite app_nil_r. Qed.

Ltac frame_ids :=
  repeat match goal with
         | H : forall id g, Some (?n, ?f) = Some (id, g) -> id = _ |- _ =>
             specialize (H n f eq_refl)
         end.

Ltac nodup_ids :=
  repeat (constructor; [cbn [In]; lia|]); constructor.

Ltac incl_ids :=
  let a := fresh "a" in
  let Ha := fresh "Ha" in
  intros a Ha; apply in_seq; cbn [In] in Ha; cbn [got];
  first [contradiction | lia].

(** The frames got are read in [A], the frames given back are [l] by [R]. *)
Ltac close_frames A l R :=
  eexists; exists l;
  split; [exact A|];
  split; [rewrite ?app_nil_r; rewrite ?R; rewrite <- ?app_assoc; reflexivity|];
  split; [subst; nodup_ids | subst; incl_ids].

Lemma frame_safe_prefetch (flags : Z) : frame_safe (action_prefetch flags).
Proof.
  apply frame_safe_same. intros w x w'. unfold action_prefetch, prefetch.
  destruct (sxplayer_prefetch (session w)). intros [= _ <-]. split; reflexivity.
Qed.

Lemma frame_safe_fetch_info (flags : Z) : frame_safe (action_fetch_info flags).
Proof.
  apply frame_safe_same. intros w x w'.
  unfold action_fetch_info, bind, get_info.
  destruct (sxplayer_get_info (session w)) as [[r info] s].
  destruct (r <? 0); [|destruct (_ || _)]; intros [= _ <-]; split; reflexivity.
Qed.

Lemma frame_safe_start (flags : Z) : frame_safe (action_start flags).
Proof.
  intros w x w'. unfold action_start, bind.
  destruct (get_frame _ w) as [[f w1]|] eqn:E; [|discriminate].
  apply (get_frame_step _ 0 _ _ _ _ (acquired_start w)) in E.
  destruct E as [R [A I]].
  destruct f as [[n g]|]; [|discriminate]. frame_ids. cbn [check ret got] in *.
  destruct (check_frame g _ flags <? 0).
  - intros [= _ <-]. close_frames A (@nil nat) R.
  - cbn [release_frame]. intros [= _ <-]. cbn [acquired released].
    close_frames A [n] R.
Qed.

Lemma frame_safe_end (flags : Z) : frame_safe (action_end flags).
Proof.
  intros w x w'. unfold action_end, bind.
  destruct (get_frame _ w) as [[f w1]|] eqn:E; [|discriminate].
  apply (get_frame_step _ 0 _ _ _ _ (acquired_start w)) in E.
  destruct E as [R [A I]].
  destruct f as [[n g]|]; cbn [got] in *.
  - frame_ids. cbn [release_frame].
    match goal with
    | |- context [get_frame ?t ?x] =>
        destruct (get_frame t x) as [[f2 w2]|] eqn:E2; [|discriminate]
    end.
    apply (get_frame_step (acquired w) (0 + 1)) in E2; [|exact A].
    cbn [released] in E2. destruct E2 as [R2 [A2 I2]].
    assert (released w2 = released w ++ [n]) as R3 by (now rewrite R2, R).
    destruct f2 as [[n2 g2]|]; cbn [got release_frame ret] in *.
    + frame_ids. intros [= _ <-]. cbn [acquired released].
      close_frames A2 [n; n2] R3.
    + intros [= _ <-]. close_frames A2 [n] R3.
  - intros [= _ <-]. close_frames A (@nil nat) R.
Qed.

Lemma frame_safe_middle (flags : Z) : frame_safe (action_middle flags).
Proof.
  intros w x w'. unfold action_middle, bind.
  destruct (get_frame _ w) as [[f0 w1]|] eqn:E0; [|discriminate].
  destruct (get_frame _ w1) as [[f1 w2]|] eqn:E1; [|discriminate].
  destruct (get_frame _ w2) as [[f2 w3]|] eqn:E2; [|discriminate].
  destruct (get_frame _ w3) as [[f3 w4]|] eqn:E3; [|discriminate].
  destruct (get_next_frame w4) as [[f4 w5]|] eqn:E4; [|discriminate].
  destruct (get_next_frame w5) as [[f5 w6]|] eqn:E5; [|discriminate].
  apply (get_frame_step _ 0 _ _ _ _ (acquired_start w)) in E0.
  destruct E0 as [R0 [A0 I0]].
  apply (get_frame_step _ _ _ _ _ _ A0) in E1. destruct E1 as [R1 [A1 I1]].
  apply (get_frame_step _ _ _ _ _ _ A1) in E2. destruct E2 as [R2 [A2 I2]].
  apply (get_frame_step _ _ _ _ _ _ A2) in E3. destruct E3 as [R3 [A3 I3]].
  apply (get_next_frame_step _ _ _ _ _ A3) in E4. destruct E4 as [R4 [A4 I4]].
  apply (get_next_frame_step _ _ _ _ _ A4) in E5. destruct E5 as [R5 [A5 I5]].
  assert (released w6 = released w) as R6
    by (now rewrite R5, R4, R3, R2, R1, R0).
  destruct (check_frames _ flags 0 w6) as [[r1 w7]|] eqn:C1; [|discriminate].
  apply check_frames_pass in C1. destruct C1 as [-> C1].
  destruct (Z.ltb_spec r1 0) as [Hneg|Hpos].
  { intros [= _ <-]. close_frames A5 (@nil nat) R6. }
  destruct C1 as [C1|C1]; [lia|].
  repeat match goal with
         | H : Forall _ (_ :: _) |- _ =>
             apply Forall_cons_iff in H; destruct H as [? H]
         end.
  destruct f0 as [[n0 g0]|]; [|cbn in *; congruence].
  destruct f1 as [[n1 g1]|]; [|cbn in *; congruence].
  destruct f2 as [[n2 g2]|]; [|cbn in *; congruence].
  destruct f3 as [[n3 g3]|]; [|cbn in *; congruence].
  destruct f4 as [[n4 g4]|]; [|cbn in *; congruence].
  destruct f5 as [[n5 g5]|]; [|cbn in *; congruence].
  frame_ids. cbn [got] in *. cbn [release_frame].
  match goal with
  | |- context [get_next_frame ?x] =>
      destruct (get_next_frame x) as [[f6 w8]|] eqn:E6; [|discriminate]
  end.
  destruct (get_frame _ w8) as [[f7 w9]|] eqn:E7; [|discriminate].
  destruct (get_frame _ w9) as [[f8 w10]|] eqn:E8; [|discriminate].
  apply (get_next_frame_step (acquired w) (0 + 1 + 1 + 1 + 1 + 1 + 1)) in E6;
    [|exact A5].
  cbn [released] in E6. destruct E6 as [R7 [A6 I6]].
  apply (get_frame_step _ _ _ _ _ _ A6) in E7. destruct E7 as [R8 [A7 I7]].
  apply (get_frame_step _ _ _ _ _ _ A7) in E8. destruct E8 as [R9 [A8 I8]].
  assert (released w10 =
          released w ++ [n0; n5; n1; n4; n2; n3]) as R10.
  { rewrite R9, R8, R7, R6, <- !app_assoc. reflexivity. }
  destruct (check_frames _ flags 0 w10) as [[r2 w11]|] eqn:C2; [|discriminate].
  apply check_frames_pass in C2. destruct C2 as [-> C2].
  destruct (Z.ltb_spec r2 0) as [Hneg2|Hpos2].
  { intros [= _ <-]. close_frames A8 [n0; n5; n1; n4; n2; n3] R10. }
  destruct C2 as [C2|C2]; [lia|].
  repeat match goal with
         | H : Forall _ (_ :: _) |- _ =>
             apply Forall_cons_iff in H; destruct H as [? H]
         end.
  destruct f6 as [[n6 g6]|]; [|cbn in *; congruence].
  destruct f7 as [[n7 g7]|]; [|cbn in *; congruence].
  frame_ids. cbn [got] in *.
  destruct f8 as [[n8 g8]|].
  { intros [= _ <-]. close_frames A8 [n0; n5; n1; n4; n2; n3] R10. }
  cbn [release_frame ret]. intros [= _ <-]. cbn [acquired released].
  close_frames A8 [n0; n5; n1; n4; n2; n3; n7; n6] R10.
Qed.

Lemma frame_safe_call_action (a flags : Z) : frame_safe (call_action a flags).
Proof.
  intros w x w'. unfold call_action.
  destruct (actions_desc a) as [[name func]|] eqn:E; [|discriminate].
  intros H.
  assert (frame_safe (func flags)) as Hs.
  { revert E. unfold actions_desc.
    repeat match goal with
           | |- (if ?b then _ else _) = _ -> _ => destruct b
           end; intros [= _ <-];
      auto using frame_safe_prefetch, frame_safe_fetch_info, frame_safe_start,
        frame_safe_middle, frame_safe_end. }
  exact (Hs _ _ _ H).
Qed.

Lemma frame_safe_run_sequence (l : list Z) (flags : Z) :
  frame_safe (run_sequence l flags).
Proof.
  induction l as [|a l IH]; cbn [run_sequence].
  - apply frame_safe_same. intros w x w' [= _ <-]. split; reflexivity.
  - apply frame_safe_bind; [apply frame_safe_call_action|].
    intros r. destruct (r <? 0); [|exact IH].
    apply frame_safe_same. intros w x w' [= _ <-]. split; reflexivity.
Qed.

Lemma frame_safe_exec_comb (comb flags : Z) : frame_safe (exec_comb comb flags).
Proof.
  intros w x w' H. rewrite exec_comb_run in H. revert w x w' H.
  apply frame_safe_bind; [|intros _; apply frame_safe_run_sequence].
  apply frame_safe_same. intros w x w'. unfold print_comb_name.
  destruct (comb_name_loop _ comb 0); [|discriminate].
  intros [= _ <-]. split; reflexivity.
Qed.

Lemma frame_safe_frames_ok {A : Type} (m : M ctx A) (w : world ctx) (x : A)
  (w' : world ctx) :
  frame_safe m -> frames_ok w -> m w = Some (x, w') -> frames_ok w'.
Proof.
  intros Hs [Ha [Hn Hi]] E.
  destruct (Hs _ _ _ E) as [k [l' [A1 [R1 [N1 I1]]]]].
  unfold frames_ok. rewrite A1, R1, length_app, length_seq.
  split; [|split].
  - rewrite Ha at 1. symmetry. apply seq_app.
  - apply NoDup_app; try assumption.
    intros a H1 H2. apply Hi in H1. rewrite Ha in H1. apply I1 in H2.
    apply in_seq in H1, H2. lia.
  - intros a H. apply in_app_iff in H. apply in_app_iff.
    destruct H as [H|H]; [left; now apply Hi | right; now apply I1].
Qed.

End FrameSafety.

(** X7.  Whatever the player answers, [exec_comb] gives back only frames
    that the player handed out, and none of them twice: if this holds of
    the frames before, it holds after, and the frames given back by the
    sequence are among those it got. *)
Theorem exec_comb_frames_ok {ctx : Type} {P : Player ctx}
  (comb flags : Z) (w : world ctx) (r : Z) (w' : world ctx) :
  frames_ok w ->
  exec_comb comb flags w = Some (r, w') ->
  frames_ok w'
  /\ exists k l',
      acquired w' = acquired w ++ seq (length (acquired w)) k
      /\ released w' = released w ++ l'
      /\ NoDup l'
      /\ incl l' (seq (length (acquired w)) k).
Proof.
  intros Hok E. split.
  - exact (frame_safe_frames_ok _ _ _ _ (frame_safe_exec_comb comb flags) Hok E).
  - exact (frame_safe_exec_comb comb flags _ _ _ E).
Qed.

Lemma exec_comb_frames_ok_witness :
  frames_ok {| session := @nil (option sxplayer_frame);
               acquired := [0; 1; 2; 3; 4; 5; 6]%nat;
               released := [0]%nat;
               invoked := [ACTION_START; ACTION_MIDDLE];
               stdout := [":: test-video-start-middle-end"%string] |}.
Proof.
  refine (proj1 (exec_comb_frames_ok 0x543 0 (fresh_world (stuck_script 7))
                   (-1) _ _ exec_comb_stuck)).
  split; [reflexivity|]. split; [constructor | intros a []].
Defined.

(** ** The probes at the start and past the end of the stream *)



(** X9.  [action_start] requests the frame at time 0.  When the player
    returns none, it has no defined behaviour: [check_frame] reads the
    [NULL] frame.  Otherwise its result is that of [check_frame] at time 0,
    and the frame is given back when the result is not negative and kept
    when it is. *)
Theorem action_start_verdict {ctx : Type} {P : Player ctx}
  (flags : Z) (w : world ctx) (f : option sxplayer_frame) (s : ctx) :
  sxplayer_get_frame (session w) 0%float = (f, s) ->
  match f with
  | None => action_start flags w = None
  | Some fr =>
      exists w',
        action_start flags w =
        Some ((if check_frame fr 0%float flags <? 0
               then check_frame fr 0%float flags else 0), w')
        /\ session w' = s
        /\ acquired w' = acquired w ++ [length (acquired w)]
        /\ released w' =
           released w ++ (if check_frame fr 0%float flags <? 0
                          then [] else [length (acquired w)])
  end.
Proof.
  intros E. unfold action_start, bind, get_frame. rewrite E.
  destruct f as [fr|]; cbn [hand_out check ret]; [|reflexivity].
  destruct (check_frame fr 0%float flags <? 0).
  - eexists. split; [reflexivity|]. cbn [session acquired released].
    rewrite app_nil_r. repeat split.
  - cbn [release_frame]. eexists. split; [reflexivity|].
    cbn [session acquired released]. repeat split.
Qed.

Lemma action_start_verdict_witness :
  exists w',
    action_start 0 (fresh_world [Some (stream_frame 5)]) =
    Some ((if check_frame (stream_frame 5) 0%float 0 <? 0
           then check_frame (stream_frame 5) 0%float 0 else 0), w')
    /\ session w' = []
    /\ acquired w' = [] ++ [0%nat]
    /\ released w' =
       [] ++ (if check_frame (stream_frame 5) 0%float 0 <? 0
              then [] else [0%nat]).
Proof.
  exact (action_start_verdict 0 (fresh_world [Some (stream_frame 5)])
           (Some (stream_frame 5)) [] eq_refl).
Defined.

(** ** More on the oracle *)

Lemma land_shiftr_mask (c m k : Z) :
  Z.land (Z.shiftr m k) 0xf = 0xf ->
  Z.land (Z.shiftr (Z.land c m) k) 0xf = Z.land (Z.shiftr c k) 0xf.
Proof.
  intros H. rewrite Z.shiftr_land, <- Z.land_assoc, H. reflexivity.
Qed.

(** X10.  [check_frame] reads in the pixel the high nibbles of its three
    low bytes and nothing else: the frame id, and so the verdict, is the
    same for two pixels that agree on the bits [0xf0f0f0]. *)
Theorem frame_id_reads_high_nibbles (c : Z) :
  frame_id_of_pixel (Z.land c 0xf0f0f0) = frame_id_of_pixel c
  /\ (forall c', Z.land c' 0xf0f0f0 = Z.land c 0xf0f0f0 ->
                 frame_id_of_pixel c' = frame_id_of_pixel c)
  /\ (forall x t flags,
         check_frame {| data0 := Z.land c 0xf0f0f0; ts := x |} t flags =
         check_frame {| data0 := c; ts := x |} t flags).
Proof.
  assert (forall d, frame_id_of_pixel (Z.land d 0xf0f0f0) = frame_id_of_pixel d)
    as H.
  { intros d. unfold frame_id_of_pixel, N.
    change (4 + 16) with 20. change (4 + 8) with 12. change (4 + 0) with 4.
    rewrite !land_shiftr_mask by reflexivity. reflexivity. }
  split; [apply H|]. split.
  - intros c' E. rewrite <- (H c'), <- (H c), E. reflexivity.
  - intros x t flags. rewrite !check_frame_unfold.
    unfold diff_color, diff_ts. cbn [data0 ts]. rewrite H. reflexivity.
Qed.

Lemma frame_id_reads_high_nibbles_witness :
  frame_id_of_pixel 0xff2a3b4c = frame_id_of_pixel 0x203040.
Proof.
  exact (proj1 (proj2 (frame_id_reads_high_nibbles 0x203040)) 0xff2a3b4c eq_refl).
Defined.

Lemma oracle_tells_apart_all :
  forallb oracle_tells_apart (seq 0 4094) = true.
Proof. vm_compute. reflexivity. Qed.

(** X11.  For every frame id up to 4093, at the time of that frame and
    without skew or trim, the oracle accepts the frame itself and rejects
    the frame two periods later; and at the time of the frame two periods
    later it rejects the frame itself.  One period away the verdict is a
    matter of rounding: at the time of frame 0 frame 1 passes, at the
    time of frame 3 frame 4 fails. *)
Theorem check_frame_tells_frames_apart (frame_id : Z) :
  0 <= frame_id <= 4093 ->
  check_frame (stream_frame frame_id) (frame_time frame_id) 0 = 0
  /\ check_frame (stream_frame (frame_id + 2)) (frame_time frame_id) 0 = -1
  /\ check_frame (stream_frame frame_id) (frame_time (frame_id + 2)) 0 = -1
  /\ check_frame (stream_frame 1) (frame_time 0) 0 = 0
  /\ check_frame (stream_frame 4) (frame_time 3) 0 = -1.
Proof.
  intros H. pose proof oracle_tells_apart_all as Hall.
  rewrite forallb_forall in Hall.
  specialize (Hall (Z.to_nat frame_id)).
  unfold oracle_tells_apart in Hall. rewrite Z2Nat.id in Hall by lia.
  assert (In (Z.to_nat frame_id) (seq 0 4094)) as Hin by (apply in_seq; lia).
  apply Hall in Hin. apply andb_true_iff in Hin. destruct Hin as [Hin H3].
  apply andb_true_iff in Hin. destruct Hin as [H1 H2].
  apply Z.eqb_eq in H1, H2, H3.
  repeat split; try assumption; reflexivity.
Qed.

Lemma check_frame_tells_frames_apart_witness :
  check_frame (stream_frame 752) (frame_time 752) 0 = 0
  /\ check_frame (stream_frame (752 + 2)) (frame_time 752) 0 = -1
  /\ check_frame (stream_frame 752) (frame_time (752 + 2)) 0 = -1
  /\ check_frame (stream_frame 1) (frame_time 0) 0 = 0
  /\ check_frame (stream_frame 4) (frame_time 3) 0 = -1.
Proof.
  apply (check_frame_tells_frames_apart 752). lia.
Defined.

(** ** The sweep over the sequences: [run_tests_all_combs] *)

Section SessionFacts.

Context {ctx : Type} {P : Player ctx} {L : Library ctx}.



(** Frames got and given back in two stretches, one after the other. *)
Lemma frames_stretches (A0 R0 A1 R1 A2 R2 : list nat) :
  (exists k l, A1 = A0 ++ seq (length A0) k /\ R1 = R0 ++ l
               /\ NoDup l /\ incl l (seq (length A0) k)) ->
  (exists k l, A2 = A1 ++ seq (length A1) k /\ R2 = R1 ++ l
               /\ NoDup l /\ incl l (seq (length A1) k)) ->
  exists k l, A2 = A0 ++ seq (length A0) k /\ R2 = R0 ++ l
              /\ NoDup l /\ incl l (seq (length A0) k).
Proof.
  intros [k1 [l1 [A1' [R1' [N1 I1]]]]] [k2 [l2 [A2' [R2' [N2 I2]]]]].
  rewrite A1', length_app, length_seq in A2', I2.
  exists (k1 + k2)%nat, (l1 ++ l2).
  rewrite seq_app, A2', R2', R1', <- !app_assoc.
  repeat split.
  - apply NoDup_app; try assumption.
    intros a H1 H2. apply I1 in H1. apply I2 in H2.
    apply in_seq in H1, H2. lia.
  - intros a Ha. apply in_app_iff in Ha. apply in_app_iff.
    destruct Ha as [Ha|Ha]; [left; now apply I1 | right; now apply I2].
Qed.

Lemma frames_no_stretch (A0 R0 : list nat) :
  exists k l, A0 = A0 ++ seq (length A0) k /\ R0 = R0 ++ l
              /\ NoDup l /\ incl l (seq (length A0) k).
Proof.
  exists 0%nat, []. cbn [seq]. rewrite !app_nil_r.
  repeat split; [constructor | intros a []].
Qed.

Lemma run_tests_all_combs_loop_frames (fuel : nat) (filename : string)
  (flags : Z) :
  forall steps comb ret0 st r st',
    run_tests_all_combs_loop steps fuel filename flags comb ret0 st
    = Some (r, st') ->
    exists k l,
      frames_got st' = frames_got st ++ seq (length (frames_got st)) k
      /\ frames_back st' = frames_back st ++ l
      /\ NoDup l
      /\ incl l (seq (length (frames_got st)) k).
Proof.
  induction steps as [|steps IH]; intros comb ret0 st r st';
    cbn [run_tests_all_combs_loop]; [discriminate|].
  destruct (sxplayer_create filename (sessions_created st)) as [s|].
  2: { intros [= _ <-]. apply frames_no_stretch. }
  destruct (get_next_comb fuel comb) as [c|]; [|discriminate].
  destruct (c =? EOA).
  - destruct ret0 as [r0|]; [|discriminate]. intros [= _ <-].
    apply frames_no_stretch.
  - destruct (exec_comb c flags _) as [[r1 w1]|] eqn:Ex; [|discriminate].
    apply frame_safe_exec_comb in Ex.
    cbn [world_of acquired released session_created frames_got frames_back]
      in Ex.
    destruct (r1 <? 0).
    + intros [= _ <-]. exact Ex.
    + intros H. apply IH in H.
      cbn [free_session frames_got frames_back] in H.
      exact (frames_stretches _ _ _ _ _ _ Ex H).
Qed.

Lemma next_frames_run (fuel : nat) :
  forall i w r w',
    next_frames fuel i w = Some (r, w') ->
    exists k,
      acquired w' = acquired w ++ seq (length (acquired w)) k
      /\ released w' = released w ++ seq (length (acquired w)) k
      /\ invoked w' = invoked w
      /\ stdout w' = stdout w
      /\ r = i + Z.of_nat k.
Proof.
  induction fuel as [|fuel IH]; intros i w r w'; cbn [next_frames];
    [discriminate|].
  unfold bind at 1. unfold get_next_frame.
  destruct (sxplayer_get_next_frame (session w)) as [[f|] s].
  - cbn [hand_out]. unfold bind at 1. cbn [release_frame].
    intros H. apply IH in H. cbn [acquired released invoked stdout] in H.
    destruct H as [k [Ha [Hr [Hi [Ho ->]]]]].
    rewrite length_app in Ha, Hr. cbn [length] in Ha, Hr.
    exists (S k). cbn [seq].
    rewrite Ha, Hr, <- !app_assoc, Nat.add_1_r. cbn [app].
    repeat split; try assumption. lia.
  - cbn [hand_out ret]. intros [= <- <-]. exists 0%nat.
    cbn [seq with_session acquired released invoked stdout].
    rewrite !app_nil_r. repeat split. lia.
Qed.

End SessionFacts.

Lemma obliging_sweep :
  @run_tests_all_combs _ scripted_player (scripted_library obliging_sessions)
    326 256 "media.mkv" 0 fresh_harness
  = Some (0, obliging_sweep_end).
Proof. vm_compute. reflexivity. Qed.



(** X13.  Over a whole sweep of [run_tests_all_combs] the frames stay in
    order: the frames got are numbered on from those got before, in the
    order of the requests and across the sessions, and the frames given
    back during the sweep are among the frames got during it, none of
    them twice.  So a harness whose frames are in order before the sweep
    has them in order after it. *)
Theorem run_tests_all_combs_frames {ctx : Type} {P : Player ctx}
  {L : Library ctx} (steps fuel : nat) (filename : string) (flags : Z)
  (st : harness) (r : Z) (st' : harness) :
  run_tests_all_combs steps fuel filename flags st = Some (r, st') ->
  (exists k l,
      frames_got st' = frames_got st ++ seq (length (frames_got st)) k
      /\ frames_back st' = frames_back st ++ l
      /\ NoDup l
      /\ incl l (seq (length (frames_got st)) k))
  /\ (frames_in_order st -> frames_in_order st').
Proof.
  intros H. apply run_tests_all_combs_loop_frames in H. split; [exact H|].
  destruct H as [k [l [A1 [R1 [N1 I1]]]]]. intros [Ha [Hn Hi]].
  unfold frames_in_order. rewrite A1, R1, length_app, length_seq.
  split; [|split].
  - rewrite Ha at 1. symmetry. apply seq_app.
  - apply NoDup_app; try assumption.
    intros a H1 H2. apply Hi in H1. rewrite Ha in H1. apply I1 in H2.
    apply in_seq in H1, H2. lia.
  - intros a H. apply in_app_iff in H. apply in_app_iff.
    destruct H as [H|H]; [left; now apply Hi | right; now apply I1].
Qed.

Lemma run_tests_all_combs_frames_witness :
  (exists k l,
      frames_got obliging_sweep_end = [] ++ seq 0 k
      /\ frames_back obliging_sweep_end = [] ++ l
      /\ NoDup l
      /\ incl l (seq 0 k))
  /\ (frames_in_order fresh_harness -> frames_in_order obliging_sweep_end).
Proof.
  exact (@run_tests_all_combs_frames _ scripted_player
           (scripted_library obliging_sessions) 326 256 "media.mkv" 0
           fresh_harness 0 obliging_sweep_end obliging_sweep).
Defined.

(** X14.  [test_next_frame] has no defined behaviour when the session
    cannot be created.  When it returns, it returns 0 whatever the player
    answered; it has created one session and freed it, has called no
    action, and has given back every frame it got, each right after
    getting it: the frames got and the frames given back are the same, in
    the same order. *)
Theorem test_next_frame_drains {ctx : Type} {P : Player ctx}
  {L : Library ctx} (fuel : nat) (filename : string) (st : harness) :
  (sxplayer_create filename (sessions_created st) = None ->
   test_next_frame fuel filename st = None)
  /\ forall r st',
      test_next_frame fuel filename st = Some (r, st') ->
      r = 0
      /\ sessions_created st' = S (sessions_created st)
      /\ sessions_freed st' = S (sessions_freed st)
      /\ actions_run st' = actions_run st
      /\ exists k,
          frames_got st' = frames_got st ++ seq (length (frames_got st)) k
          /\ frames_back st'
             = frames_back st ++ seq (length (frames_got st)) k.
Proof.
  unfold test_next_frame. split.
  - intros ->. reflexivity.
  - intros r st'.
    destruct (sxplayer_create filename (sessions_created st)) as [s|];
      [|discriminate].
    unfold bind.
    destruct (next_frames fuel 0 _) as [[i w1]|] eqn:E1; [|discriminate].
    destruct (next_frames fuel i w1) as [[i2 w2]|] eqn:E2; [|discriminate].
    intros [= <- <-].
    apply next_frames_run in E1, E2.
    destruct E1 as [k1 [A1 [R1 [I1 _]]]]. destruct E2 as [k2 [A2 [R2 [I2 _]]]].
    cbn [world_of session_created acquired released invoked frames_got
           frames_back actions_run] in A1, R1, I1.
    cbn [free_session sessions_created sessions_freed session_created
           actions_run frames_got frames_back].
    split; [reflexivity|]. split; [reflexivity|]. split; [reflexivity|].
    split; [congruence|].
    exists (k1 + k2)%nat.
    rewrite A1, length_app, length_seq in A2, R2.
    rewrite A2, R2, R1, seq_app, <- !app_assoc. split; reflexivity.
Qed.

Lemma test_next_frame_drains_witness :
  0 = 0
  /\ sessions_created
       {| frames_got := [0; 1; 2]%nat; frames_back := [0; 1; 2]%nat;
          actions_run := []; printed := [];
          sessions_created := 1; sessions_freed := 1 |} = 1%nat
  /\ sessions_freed
       {| frames_got := [0; 1; 2]%nat; frames_back := [0; 1; 2]%nat;
          actions_run := []; printed := [];
          sessions_created := 1; sessions_freed := 1 |} = 1%nat
  /\ actions_run
       {| frames_got := [0; 1; 2]%nat; frames_back := [0; 1; 2]%nat;
          actions_run := []; printed := [];
          sessions_created := 1; sessions_freed := 1 |} = []
  /\ exists k,
      frames_got
        {| frames_got := [0; 1; 2]%nat; frames_back := [0; 1; 2]%nat;
           actions_run := []; printed := [];
           sessions_created := 1; sessions_freed := 1 |}
      = [] ++ seq 0 k
      /\ frames_back
           {| frames_got := [0; 1; 2]%nat; frames_back := [0; 1; 2]%nat;
              actions_run := []; printed := [];
              sessions_created := 1; sessions_freed := 1 |}
         = [] ++ seq 0 k.
Proof.
  apply (proj2 (@test_next_frame_drains _ scripted_player
                  (scripted_library
                     [[Some (stream_frame 0); Some (stream_frame 1); None;
                       Some (stream_frame 2); None]])
                  10 "media.mkv" fresh_harness)).
  vm_compute. reflexivity.
Defined.

(** ** The file that is not there: [run_notavail_file_test] *)

Section NotAvailFacts.

Context {ctx : Type} {P : Player ctx} {L : Library ctx}.

(** A frame is requested and handed to [sxplayer_release_frame]. *)
Lemma get_and_release {B : Type} (t : float) (rest : M ctx B) (w : world ctx) :
  exists w' k,
    bind (get_frame t) (fun f => bind (release_frame f) (fun _ => rest)) w
    = rest w'
    /\ bind (get_frame t) (fun f => release_frame f) w = Some (tt, w')
    /\ (k <= 1)%nat
    /\ acquired w' = acquired w ++ seq (length (acquired w)) k
    /\ released w' = released w ++ seq (length (acquired w)) k
    /\ invoked w' = invoked w.
Proof.
  unfold bind, get_frame.
  destruct (sxplayer_get_frame (session w) t) as [[f|] s];
    cbn [hand_out release_frame ret].
  - eexists. exists 1%nat. split; [reflexivity|]. split; [reflexivity|].
    cbn [acquired released invoked seq]. repeat split. lia.
  - eexists. exists 0%nat. split; [reflexivity|]. split; [reflexivity|].
    cbn [with_session acquired released invoked seq].
    rewrite !app_nil_r. repeat split. lia.
Qed.

End NotAvailFacts.

(** X15.  [run_notavail_file_test] always returns: a [NULL] frame is
    handed to [sxplayer_release_frame] like any other, so no answer of
    the player is left unchecked.  It returns [-1], without a session,
    when the session cannot be created; otherwise it returns 0 whatever
    the player answered, has created one session and freed it, has called
    no action, and has given back each of the at most three frames it
    got, right after getting it. *)
Theorem run_notavail_file_test_returns {ctx : Type} {P : Player ctx}
  {L : Library ctx} (st : harness) :
  exists r st',
    run_notavail_file_test st = Some (r, st')
    /\ (sxplayer_create filename (sessions_created st) = None ->
        r = -1 /\ st' = st)
    /\ (sxplayer_create filename (sessions_created st) <> None ->
        r = 0
        /\ sessions_created st' = S (sessions_created st)
        /\ sessions_freed st' = S (sessions_freed st)
        /\ actions_run st' = actions_run st
        /\ exists k,
            (k <= 3)%nat
            /\ frames_got st'
               = frames_got st ++ seq (length (frames_got st)) k
            /\ frames_back st'
               = frames_back st ++ seq (length (frames_got st)) k).
Proof.
  unfold run_notavail_file_test.
  destruct (sxplayer_create filename (sessions_created st)) as [s|].
  2: { exists (-1), st. split; [reflexivity|].
       split; [intros _; split; reflexivity | intros H; now contradiction H]. }
  set (w0 := world_of _ _).
  destruct (get_and_release (-1)%float
              (bind (get_frame 1.0%float) (fun f =>
               bind (release_frame f) (fun _ =>
               bind (get_frame 3.0%float) (fun f => release_frame f)))) w0)
    as [w1 [k1 [E1 [_ [Hk1 [A1 [R1 I1]]]]]]].
  rewrite E1.
  destruct (get_and_release 1.0%float
              (bind (get_frame 3.0%float) (fun f => release_frame f)) w1)
    as [w2 [k2 [E2 [_ [Hk2 [A2 [R2 I2]]]]]]].
  rewrite E2.
  destruct (get_and_release 3.0%float (ret tt) w2)
    as [w3 [k3 [_ [E3 [Hk3 [A3 [R3 I3]]]]]]].
  rewrite E3.
  eexists. eexists. split; [reflexivity|]. split; [discriminate|].
  intros _.
  cbn [free_session session_created sessions_created sessions_freed
         actions_run frames_got frames_back].
  subst w0.
  cbn [world_of acquired released invoked session_created actions_run
         frames_got frames_back] in A1, R1, I1.
  split; [reflexivity|]. split; [reflexivity|]. split; [reflexivity|].
  split; [congruence|].
  exists (k1 + (k2 + k3))%nat. split; [lia|].
  rewrite A1, length_app, length_seq in A2, R2.
  rewrite A2, !length_app, !length_seq in A3, R3.
  rewrite A3, R3, R2, R1, !seq_app, <- !app_assoc, ?Nat.add_assoc.
  split; reflexivity.
Qed.
